(** * storage: file and directory helpers over [fs/promises]

    A shallow embedding of [Dir.mjs] and [File.mjs].  Every method of the
    two classes is an [async] function whose body awaits calls of Node's
    [fs/promises] and [path] modules.  The embedding threads the filesystem
    through a small state-and-exception monad; the two Node modules are
    interfaces (type classes), so that what is proved of the methods holds
    for every behaviour of the operating system, and a reference filesystem
    instantiates them where a statement is evaluated on a concrete tree. *)

From Stdlib Require Import String Ascii List Bool Arith NArith Lia.
From Stdlib Require Import DecimalString DecimalN.
Import ListNotations.

Local Open Scope list_scope.
Local Open Scope string_scope.

Set Warnings "-register-all".

Set Implicit Arguments.

(** ** JavaScript values and completions *)

(** What a rejected promise or a [throw] carries. *)
Inductive js_error : Type :=
| OsError (code : string)         (* rejection of an fs/promises call *)
| JsError (message : string)      (* new Error(message) *)
| SyntaxError (message : string). (* thrown by new RegExp(pattern) *)

(** Settlement of a promise returned by a library call. *)
Inductive outcome (A : Type) : Type :=
| Resolved (a : A)
| Rejected (e : js_error).
Arguments Rejected {A} e.

(** The values [File.copy] can return. *)
Inductive js_value : Type :=
| VUndefined
| VBool (b : bool).

(** Result of running an async method from a filesystem state: a returned
    value, a thrown error (a rejected promise), no result within the fuel
    given (the method has unbounded loops and recursion), or an input
    outside the fragment of [RegExp] that is modelled. *)
Inductive result (St A : Type) : Type :=
| Ret (a : A) (s : St)
| Thrown (e : js_error) (s : St)
| Diverge
| Unmodelled.
Arguments Ret {St A} a s.
Arguments Thrown {St A} e s.
Arguments Diverge {St A}.
Arguments Unmodelled {St A}.

Section Monad.
Variable St : Type.

Definition M (A : Type) : Type := St -> result St A.

Definition ret {A} (a : A) : M A := fun s => Ret a s.

Definition throw {A} (e : js_error) : M A := fun s => Thrown e s.

Definition diverge {A} : M A := fun _ => Diverge.

Definition bind {A B} (m : M A) (k : A -> M B) : M B :=
  fun s =>
    match m s with
    | Ret a s' => k a s'
    | Thrown e s' => Thrown e s'
    | Diverge => Diverge
    | Unmodelled => Unmodelled
    end.

(** [try { m } catch (err) { h err }] *)
Definition try_catch {A} (m : M A) (h : js_error -> M A) : M A :=
  fun s =>
    match m s with
    | Thrown e s' => h e s'
    | r => r
    end.

(** [await] of a call that only inspects the filesystem. *)
Definition await_read {A} (f : St -> outcome A) : M A :=
  fun s =>
    match f s with
    | Resolved a => Ret a s
    | Rejected e => Thrown e s
    end.

(** [await] of a call that may change the filesystem (also when it is
    rejected). *)
Definition await_write {A} (f : St -> outcome A * St) : M A :=
  fun s =>
    match f s with
    | (Resolved a, s') => Ret a s'
    | (Rejected e, s') => Thrown e s'
    end.
End Monad.

Arguments ret {St A} a _.
Arguments throw {St A} e _.
Arguments diverge {St A} _.
Arguments bind {St A B} m k _.
Arguments try_catch {St A} m h _.
Arguments await_read {St A} f _.
Arguments await_write {St A} f _.

Declare Scope js_scope.
Delimit Scope js_scope with js.
Notation "x <- m ;; k" := (bind m (fun x => k))
  (at level 61, m at next level, right associativity) : js_scope.
Notation "m ;; k" := (bind m (fun _ => k))
  (at level 61, right associativity) : js_scope.
Local Open Scope js_scope.

(** ** The imported modules *)

(** [import { access, mkdir, rename, rm, readdir, stat } from 'fs/promises']
    and [import { readFile, writeFile, unlink } from 'fs/promises'].
    [stat] is kept to the one method the code calls on its result,
    [isDirectory()]; [rm] is [rm(path, { recursive: true })] and [readFile]
    is [readFile(path, 'utf-8')]. *)
Class FsPromises : Type := {
  fs : Type;
  access : string -> fs -> outcome unit;
  stat_isDirectory : string -> fs -> outcome bool;
  readdir : string -> fs -> outcome (list string);
  readFile : string -> fs -> outcome string;
  mkdir : string -> fs -> outcome unit * fs;
  rename : string -> string -> fs -> outcome unit * fs;
  rm_recursive : string -> fs -> outcome unit * fs;
  writeFile : string -> string -> fs -> outcome unit * fs;
  unlink : string -> fs -> outcome unit * fs
}.

(** [import path from 'path']: the four calls the code makes, on strings
    (where none of them throws). [parse_name p] is [path.parse(p).name] and
    [basename_ext p e] is [path.basename(p, e)]. *)
Class NodePath : Type := {
  basename : string -> string;
  basename_ext : string -> string -> string;
  extname : string -> string;
  parse_name : string -> string
}.

(** ** Numbers *)

(** [count] in [lastName] is a JavaScript number that starts at 0 and is
    only incremented.  Up to 2^53 the increment is exact; 2^53 + 1 is not a
    double and rounds (ties to even) back to 2^53, so there [count++] leaves
    the value as it is. *)
Definition max_safe : N := 2 ^ 53.

Definition incr (count : N) : N :=
  if (count <? max_safe)%N then (count + 1)%N else count.

(** [`${count}`] for such a number: its decimal digits. *)
Definition Number_toString (count : N) : string :=
  NilZero.string_of_uint (N.to_uint count).

(** ** [new RegExp(pattern, 'g')] and [String.prototype.replace]

    [Dir.copy] computes the destination of an entry as
    [before.replace(new RegExp(ofPath, 'g'), toPath)].  The pattern language
    is modelled on a fragment: pattern characters, [.], the greedy
    quantifiers [*], [+] and [?], capturing groups and [|].  A pattern that
    uses anything else (classes, escapes, braces, assertions, lazy
    quantifiers, [(?...)] groups) and a replacement text that contains [$]
    are reported as [NotModelled], never guessed.  A string is its sequence
    of code units. *)

Inductive regex : Type :=
| Empty
| Char (c : ascii)
| AnyChar
| Seq (r1 r2 : regex)
| Alt (r1 r2 : regex)
| Star (r : regex)
| Plus (r : regex)
| Opt (r : regex)
| Group (r : regex).

Inductive parsed (A : Type) : Type :=
| Parsed (a : A)
| BadSyntax (message : string)
| NotModelled.
Arguments BadSyntax {A} message.
Arguments NotModelled {A}.

Definition is_char (c : ascii) (d : string) : bool :=
  match d with
  | String x EmptyString => Ascii.eqb c x
  | _ => false
  end.

Definition is_quantifier (c : ascii) : bool :=
  is_char c "*" || is_char c "+" || is_char c "?".

(** Syntax characters the fragment does not interpret. *)
Definition is_unmodelled (c : ascii) : bool :=
  is_char c "[" || is_char c "]" || is_char c "{" || is_char c "}"
  || is_char c "\" || is_char c "^" || is_char c "$".

Definition quantify (q : ascii) (r : regex) : regex :=
  if is_char q "*" then Star r
  else if is_char q "+" then Plus r
  else Opt r.

(** Recursive descent over the pattern's characters.  Both functions return
    the expression read and the characters left; an alternative stops at
    [|], at [)] and at the end. *)
Fixpoint parse_disjunction (fuel : nat) (s : list ascii)
  : parsed (regex * list ascii) :=
  match fuel with
  | O => NotModelled
  | S f =>
    match parse_alternative f s Empty with
    | Parsed (r1, c :: s1) =>
      if is_char c "|" then
        match parse_disjunction f s1 with
        | Parsed (r2, s2) => Parsed (Alt r1 r2, s2)
        | e => e
        end
      else Parsed (r1, c :: s1)
    | other => other
    end
  end
with parse_alternative (fuel : nat) (s : list ascii) (acc : regex)
  : parsed (regex * list ascii) :=
  match fuel with
  | O => NotModelled
  | S f =>
    match s with
    | [] => Parsed (acc, [])
    | c :: s' =>
      if is_char c "|" || is_char c ")" then Parsed (acc, s)
      else
        let atom : parsed (regex * list ascii) :=
          if is_char c "(" then
            match s' with
            | q :: _ =>
              if is_char q "?" then NotModelled
              else
                match parse_disjunction f s' with
                | Parsed (r, d :: s2) =>
                  if is_char d ")" then Parsed (Group r, s2) else NotModelled
                | Parsed (_, []) => BadSyntax "Unterminated group"
                | e => e
                end
            | [] => BadSyntax "Unterminated group"
            end
          else if is_quantifier c then BadSyntax "Nothing to repeat"
          else if is_unmodelled c then NotModelled
          else if is_char c "." then Parsed (AnyChar, s')
          else Parsed (Char c, s') in
        match atom with
        | Parsed (r, q :: s1) =>
          if is_quantifier q then
            match s1 with
            | l :: _ =>
              if is_char l "?" then NotModelled
              else parse_alternative f s1 (Seq acc (quantify q r))
            | [] => parse_alternative f s1 (Seq acc (quantify q r))
            end
          else parse_alternative f (q :: s1) (Seq acc r)
        | Parsed (r, []) => parse_alternative f [] (Seq acc r)
        | e => e
        end
    end
  end.

(** [new RegExp(pattern, 'g')] *)
Definition RegExp_new (pattern : string) : parsed regex :=
  let s := list_ascii_of_string pattern in
  match parse_disjunction (2 * List.length s + 2) s with
  | Parsed (r, []) => Parsed r
  | Parsed (_, _ :: _) => BadSyntax "Unmatched ')'"
  | BadSyntax m => BadSyntax m
  | NotModelled => NotModelled
  end.

(** [.] matches any code unit but a line terminator. *)
Definition is_line_terminator (c : ascii) : bool :=
  Nat.eqb (nat_of_ascii c) 10 || Nat.eqb (nat_of_ascii c) 13.

(** Iterations of a greedy [*] after the mandatory ones: an iteration that
    matches the empty string is rejected, so [n], the number of characters
    left, bounds the iterations. *)
Fixpoint repeat_matcher
    (m : list ascii -> (list ascii -> option (list ascii)) -> option (list ascii))
    (k : list ascii -> option (list ascii))
    (n : nat) (s : list ascii) : option (list ascii) :=
  match n with
  | O => k s
  | S n' =>
    match m s (fun s1 =>
                 if Nat.eqb (List.length s1) (List.length s) then None
                 else repeat_matcher m k n' s1) with
    | Some z => Some z
    | None => k s
    end
  end.

(** The backtracking matcher: [rmatch r s k] matches [r] at the head of [s]
    and hands what is left to the continuation [k]; the result is what is
    left after the whole match. *)
Fixpoint rmatch (r : regex) (s : list ascii)
    (k : list ascii -> option (list ascii)) : option (list ascii) :=
  match r with
  | Empty => k s
  | Char c =>
    match s with
    | x :: s' => if Ascii.eqb x c then k s' else None
    | [] => None
    end
  | AnyChar =>
    match s with
    | x :: s' => if is_line_terminator x then None else k s'
    | [] => None
    end
  | Seq r1 r2 => rmatch r1 s (fun s1 => rmatch r2 s1 k)
  | Alt r1 r2 =>
    match rmatch r1 s k with
    | Some z => Some z
    | None => rmatch r2 s k
    end
  | Star r1 => repeat_matcher (rmatch r1) k (List.length s) s
  | Plus r1 =>
    rmatch r1 s (fun s1 => repeat_matcher (rmatch r1) k (List.length s1) s1)
  | Opt r1 =>
    match rmatch r1 s (fun s1 =>
                         if Nat.eqb (List.length s1) (List.length s) then None
                         else k s1) with
    | Some z => Some z
    | None => k s
    end
  | Group r1 => rmatch r1 s k
  end.

(** One [exec] from the current [lastIndex]: the characters skipped before
    the leftmost match and the characters after it. *)
Fixpoint regexp_exec (r : regex) (s : list ascii)
  : option (list ascii * list ascii) :=
  match rmatch r s Some with
  | Some rest => Some ([], rest)
  | None =>
    match s with
    | [] => None
    | c :: s' =>
      match regexp_exec r s' with
      | Some (skipped, rest) => Some (c :: skipped, rest)
      | None => None
      end
    end
  end.

(** The global replace loop: every match, left to right, is replaced; after
    an empty match [lastIndex] advances by one, which copies one character. *)
Fixpoint replace_loop (fuel : nat) (r : regex) (replacement s : list ascii)
  : list ascii :=
  match fuel with
  | O => s
  | S f =>
    match regexp_exec r s with
    | None => s
    | Some (skipped, rest) =>
      (skipped ++ replacement ++
        (if Nat.eqb (List.length skipped + List.length rest) (List.length s) then
           match rest with
           | [] => []
           | c :: rest' => c :: replace_loop f r replacement rest'
           end
         else replace_loop f r replacement rest))%list
    end
  end.

Definition has_dollar (s : list ascii) : bool :=
  existsb (fun c => is_char c "$") s.

(** [subject.replace(new RegExp(pattern, 'g'), replacement)] *)
Definition String_replace (subject pattern replacement : string)
  : parsed string :=
  match RegExp_new pattern with
  | Parsed r =>
    let s := list_ascii_of_string subject in
    let rep := list_ascii_of_string replacement in
    if has_dollar rep then NotModelled
    else Parsed (string_of_list_ascii (replace_loop (S (List.length s)) r rep s))
  | BadSyntax m => BadSyntax m
  | NotModelled => NotModelled
  end.

(** *** Literal replacement, as the specification words it

    The specification describes the destination as a literal substring
    replacement.  These definitions follow those words: the pattern is
    text, every occurrence of it is replaced, left to right. *)

Fixpoint strip_prefix (p s : list ascii) : option (list ascii) :=
  match p, s with
  | [], _ => Some s
  | c :: p', x :: s' => if Ascii.eqb x c then strip_prefix p' s' else None
  | _ :: _, [] => None
  end.

(** The characters before the leftmost occurrence and those after it. *)
Fixpoint find_literal (p s : list ascii) : option (list ascii * list ascii) :=
  match strip_prefix p s with
  | Some rest => Some ([], rest)
  | None =>
    match s with
    | [] => None
    | c :: s' =>
      match find_literal p s' with
      | Some (skipped, rest) => Some (c :: skipped, rest)
      | None => None
      end
    end
  end.

Fixpoint replace_literal (fuel : nat) (p replacement s : list ascii)
  : list ascii :=
  match fuel with
  | O => s
  | S f =>
    match find_literal p s with
    | None => s
    | Some (skipped, rest) =>
      (skipped ++ replacement ++
        (if Nat.eqb (List.length skipped + List.length rest) (List.length s) then
           match rest with
           | [] => []
           | c :: rest' => c :: replace_literal f p replacement rest'
           end
         else replace_literal f p replacement rest))%list
    end
  end.

Definition replaceAll_literal (subject pattern replacement : string) : string :=
  let s := list_ascii_of_string subject in
  string_of_list_ascii
    (replace_literal (S (List.length s)) (list_ascii_of_string pattern)
                     (list_ascii_of_string replacement) s).

(** Whether the text [pattern] occurs in [s]. *)
Definition occurs (pattern s : string) : bool :=
  match find_literal (list_ascii_of_string pattern) (list_ascii_of_string s) with
  | Some _ => true
  | None => false
  end.

(** The characters that have a meaning in a pattern. *)
Definition is_syntax_character (c : ascii) : bool :=
  is_char c "|" || is_char c ")" || is_char c "(" || is_char c "*"
  || is_char c "+" || is_char c "?" || is_char c "[" || is_char c "]"
  || is_char c "{" || is_char c "}" || is_char c "\" || is_char c "^"
  || is_char c "$" || is_char c ".".

(** A text without such characters. *)
Definition plain (s : string) : bool :=
  forallb (fun c => negb (is_syntax_character c)) (list_ascii_of_string s).

(** The expression a plain pattern compiles to. *)
Definition chain (p : list ascii) : regex :=
  fold_left (fun acc c => Seq acc (Char c)) p Empty.

(** ** Result objects *)

(** An entry of [Dir.list]: the object [info].  The keys [extension] and
    [nameWithExtension] are set for files only and [sub] only for a
    directory of a recursive listing; an unset key is [None]. *)
Inductive DirEntry : Type :=
  mkDirEntry {
    path : string;
    file : bool;
    name : string;
    extension : option string;
    nameWithExtension : option string;
    sub : option (list DirEntry)
  }.

(** What [File.read] resolves with: [{ read: true, name, content, extension,
    nameWithExtension }] or [{ read: false, content: err }]. *)
Inductive ReadResult : Type :=
| ReadOk (name content extension nameWithExtension : string)
| ReadFailed (content : js_error).

Definition read (r : ReadResult) : bool :=
  match r with
  | ReadOk _ _ _ _ => true
  | ReadFailed _ => false
  end.

(** [{ create: true }] or [{ create: false, error: err }], and alike for
    [update], [delete] and [rename]. *)
Record CreateResult : Type :=
  { create : bool; create_error : option js_error }.
Record UpdateResult : Type :=
  { updated : bool; update_error : option js_error }.
Record DeleteResult : Type :=
  { deleted : bool; delete_error : option js_error }.
Record RenameResult : Type :=
  { renamed : bool; rename_error : option js_error }.

(** A parameter that may be omitted or empty is falsy in [!toPath]. *)
Definition falsy (v : option string) : bool :=
  match v with
  | None => true
  | Some EmptyString => true
  | Some _ => false
  end.

Definition string_or_empty (v : option string) : string :=
  match v with
  | Some s => s
  | None => ""
  end.

Section Storage.
Context {os : FsPromises} {np : NodePath}.

Definition lift_parsed {A} (p : parsed A) : M fs A :=
  match p with
  | Parsed a => ret a
  | BadSyntax m => throw (SyntaxError m)
  | NotModelled => fun _ => Unmodelled
  end.

(** *** Dir.mjs, first part *)

Definition Dir_exists (dirName : string) : M fs bool :=
  try_catch
    (await_read (access dirName) ;;
     ret true)
    (fun _ => ret false).

Definition Dir_create (dirName : string) : M fs bool :=
  try_catch
    (await_write (mkdir dirName) ;;
     ret true)
    (fun _ => ret false).

Definition Dir_rename (oldDir newDir : string) : M fs bool :=
  try_catch
    (await_write (rename oldDir newDir) ;;
     ret true)
    (fun _ => ret false).

Definition Dir_delete (folderPath : string) : M fs bool :=
  try_catch
    (await_write (rm_recursive folderPath) ;;
     ret true)
    (fun _ => ret false).

Definition Dir_check (path : string) : M fs bool :=
  try_catch
    (isDirectory <- await_read (stat_isDirectory path) ;;
     ret isDirectory)
    (fun _ => ret false).

(** The body of the [for (let index in items)] loop of [list], for one
    item; [self] is [this.list]. *)
Definition list_item (self : string -> bool -> M fs (list DirEntry))
    (dirPath : string) (listSubPath : bool) (item : string)
  : M fs DirEntry :=
  let filePath := dirPath ++ "/" ++ item in
  isDir <- Dir_check filePath ;;
  let fileNameWithExtension := basename filePath in
  let fileName := parse_name filePath in
  let fileExtension := extname filePath in
  sub <- (if listSubPath && isDir
          then (l <- self filePath true ;; ret (Some l))
          else ret None) ;;
  ret {| path := filePath;
         file := negb isDir;
         name := fileName;
         extension := if negb isDir then Some fileExtension else None;
         nameWithExtension :=
           if negb isDir then Some fileNameWithExtension else None;
         sub := sub |}.

Fixpoint list_loop (self : string -> bool -> M fs (list DirEntry))
    (dirPath : string) (listSubPath : bool)
    (items : list string) (contents : list DirEntry)
  : M fs (list DirEntry) :=
  match items with
  | [] => ret contents
  | item :: rest =>
    info <- list_item self dirPath listSubPath item ;;
    list_loop self dirPath listSubPath rest (contents ++ [info])%list
  end.

Fixpoint Dir_list (fuel : nat) (dirPath : string) (listSubPath : bool)
  : M fs (list DirEntry) :=
  match fuel with
  | O => diverge
  | S f =>
    try_catch
      (items <- await_read (readdir dirPath) ;;
       list_loop (Dir_list f) dirPath listSubPath items [])
      (fun _ => ret [])
  end.

(** The name [lastName] probes when its counter is [count]. *)
Definition findName (baseName extension : string) (count : N) : string :=
  if (1 <? count)%N
  then baseName ++ "-copy-" ++ Number_toString count ++ extension
  else baseName ++ "-copy" ++ extension.

(** The [do ... while (find)] loop of [lastName]; [find] is true whenever
    the condition is tested. *)
Fixpoint lastName_loop (fuel : nat) (baseName extension : string)
    (count : N) : M fs string :=
  match fuel with
  | O => diverge
  | S f =>
    exists_ <- Dir_exists (findName baseName extension count) ;;
    if negb exists_ then ret (findName baseName extension count)
    else lastName_loop f baseName extension (incr count)
  end.

Definition Dir_lastName (fuel : nat) (baseName extension : string)
  : M fs string :=
  lastName_loop fuel baseName extension 0%N.

(** *** File.mjs *)

Definition File_read (filePath : string) : M fs ReadResult :=
  try_catch
    (content <- await_read (readFile filePath) ;;
     let extension := extname filePath in
     let fileName := basename_ext filePath extension in
     ret (ReadOk fileName content extension (fileName ++ extension)))
    (fun err => ret (ReadFailed err)).

Definition File_create (filePath content : string) : M fs CreateResult :=
  try_catch
    (await_write (writeFile filePath content) ;;
     ret {| create := true; create_error := None |})
    (fun err => ret {| create := false; create_error := Some err |}).

Definition File_update (filePath content : string) : M fs UpdateResult :=
  try_catch
    (await_write (writeFile filePath content) ;;
     ret {| updated := true; update_error := None |})
    (fun err => ret {| updated := false; update_error := Some err |}).

Definition File_delete (filePath : string) : M fs DeleteResult :=
  try_catch
    (await_write (unlink filePath) ;;
     ret {| deleted := true; delete_error := None |})
    (fun err => ret {| deleted := false; delete_error := Some err |}).

Definition File_rename (oldFile newFile : string) : M fs RenameResult :=
  try_catch
    (isDir <- Dir_check oldFile ;;
     (if isDir then throw (JsError "It is not a valid file.") else ret tt) ;;
     Dir_rename oldFile newFile ;;
     ret {| renamed := true; rename_error := None |})
    (fun err => ret {| renamed := false; rename_error := Some err |}).

(** The function ends without a [return] when [file.read] is false. *)
Definition File_copy (oldFilePath newFilePath : string) : M fs js_value :=
  try_catch
    (file <- File_read oldFilePath ;;
     match file with
     | ReadOk _ content _ _ =>
       File_create newFilePath content ;;
       ret (VBool true)
     | ReadFailed _ => ret VUndefined
     end)
    (fun _ => ret (VBool false)).

(** *** Dir.mjs, second part *)

(** [before.replace(new RegExp(ofPath, 'g'), toPath)] *)
Definition after_path (ofPath toPath before : string) : parsed string :=
  String_replace before ofPath toPath.

(** The [for (let item of copies)] loop of [copy]; [self] is
    [this.copy]. *)
Fixpoint copy_loop (self : string -> option string -> M fs bool)
    (ofPath toPath : string) (copies : list DirEntry) : M fs unit :=
  match copies with
  | [] => ret tt
  | item :: rest =>
    let file := file item in
    let before := path item in
    after <- lift_parsed (after_path ofPath toPath before) ;;
    (if negb file
     then (self before (Some after) ;; ret tt)
     else (File_copy before after ;; ret tt)) ;;
    copy_loop self ofPath toPath rest
  end.

Fixpoint Dir_copy (fuel : nat) (ofPath : string) (toPath : option string)
  : M fs bool :=
  match fuel with
  | O => diverge
  | S f =>
    toPath <- (if falsy toPath
               then Dir_lastName (S f) ofPath ""
               else ret (string_or_empty toPath)) ;;
    exists_ <- Dir_exists toPath ;;
    (if negb exists_ then (Dir_create toPath ;; ret tt) else ret tt) ;;
    copies <- Dir_list (S f) ofPath false ;;
    copy_loop (Dir_copy f) ofPath toPath copies ;;
    ret true
  end.

(** [move] has no [return]: it resolves with [undefined]. *)
Definition Dir_move (fuel : nat) (ofPath : string) (toPath : option string)
  : M fs unit :=
  Dir_copy fuel ofPath toPath ;;
  Dir_delete ofPath ;;
  ret tt.

End Storage.

(** ** A reference filesystem

    An instance of the two interfaces on which the methods can be run: a
    tree of directories and regular files with permission bits.  There are
    no links and one user.  A path is resolved from the root of the tree,
    which stands for the working directory; empty components and [.] are
    skipped and [..] is resolved lexically.  A removal or a rename that is
    refused leaves the tree as it was. *)

Record mode : Type :=
  { can_read : bool; can_write : bool; can_search : bool }.

Definition rwx : mode :=
  {| can_read := true; can_write := true; can_search := true |}.

Inductive node : Type :=
| RegFile (m : mode) (content : string)
| Directory (m : mode) (entries : list (string * node)).

Definition ENOENT := OsError "ENOENT".
Definition ENOTDIR := OsError "ENOTDIR".
Definition EACCES := OsError "EACCES".
Definition EEXIST := OsError "EEXIST".
Definition EISDIR := OsError "EISDIR".
Definition EPERM := OsError "EPERM".
Definition EBUSY := OsError "EBUSY".
Definition EINVAL := OsError "EINVAL".
Definition ENOTEMPTY := OsError "ENOTEMPTY".

(** The text between the slashes of a path. *)
Fixpoint split_slash (s : string) (current : string) : list string :=
  match s with
  | EmptyString => [current]
  | String c s' =>
    if is_char c "/" then current :: split_slash s' ""
    else split_slash s' (current ++ String c "")
  end.

(** Components in reverse order, the innermost first. *)
Fixpoint resolve_components (raw : list string) (stack : list string)
  : list string :=
  match raw with
  | [] => stack
  | c :: raw' =>
    if String.eqb c "" || String.eqb c "." then resolve_components raw' stack
    else if String.eqb c ".." then resolve_components raw' (List.tl stack)
    else resolve_components raw' (c :: stack)
  end.

Definition components (p : string) : list string :=
  List.rev (resolve_components (split_slash p "") []).

Fixpoint get_entry (n : string) (es : list (string * node)) : option node :=
  match es with
  | [] => None
  | (k, v) :: es' => if String.eqb k n then Some v else get_entry n es'
  end.

Fixpoint put_entry (n : string) (v : node) (es : list (string * node))
  : list (string * node) :=
  match es with
  | [] => [(n, v)]
  | (k, w) :: es' =>
    if String.eqb k n then (k, v) :: es' else (k, w) :: put_entry n v es'
  end.

Fixpoint del_entry (n : string) (es : list (string * node))
  : list (string * node) :=
  match es with
  | [] => []
  | (k, w) :: es' =>
    if String.eqb k n then del_entry n es' else (k, w) :: del_entry n es'
  end.

(** Path resolution: every directory on the way must be searchable. *)
Fixpoint walk (t : node) (cs : list string) : outcome node :=
  match cs with
  | [] => Resolved t
  | c :: cs' =>
    match t with
    | RegFile _ _ => Rejected ENOTDIR
    | Directory m es =>
      if can_search m then
        match get_entry c es with
        | Some k => walk k cs'
        | None => Rejected ENOENT
        end
      else Rejected EACCES
    end
  end.

(** Change of the entry a path names: [f] receives the mode of the parent
    directory and the entry as it is, and answers with the entry as it is
    to be ([None]: no entry). *)
Fixpoint update (t : node) (cs : list string)
    (f : mode -> option node -> outcome (option node)) : outcome node :=
  match cs with
  | [] => Rejected EBUSY
  | c :: cs' =>
    match t with
    | RegFile _ _ => Rejected ENOTDIR
    | Directory m es =>
      if can_search m then
        match cs' with
        | [] =>
          match f m (get_entry c es) with
          | Resolved (Some n) => Resolved (Directory m (put_entry c n es))
          | Resolved None => Resolved (Directory m (del_entry c es))
          | Rejected e => Rejected e
          end
        | _ :: _ =>
          match get_entry c es with
          | Some k =>
            match update k cs' f with
            | Resolved k' => Resolved (Directory m (put_entry c k' es))
            | Rejected e => Rejected e
            end
          | None => Rejected ENOENT
          end
        end
      else Rejected EACCES
    end
  end.

(** A mutation either yields the new tree or is refused and leaves the
    old one. *)
Definition commit (t : node) (r : outcome node) : outcome unit * node :=
  match r with
  | Resolved t' => (Resolved tt, t')
  | Rejected e => (Rejected e, t)
  end.

(** Whether [rm -r] can empty and remove a node: every directory below
    that has entries must grant all three permissions. *)
Fixpoint removable (n : node) : bool :=
  match n with
  | RegFile _ _ => true
  | Directory m es =>
    match es with
    | [] => true
    | _ :: _ =>
      can_read m && can_write m && can_search m
      && forallb (fun e => removable (snd e)) es
    end
  end.

Definition ref_access (p : string) (t : node) : outcome unit :=
  match walk t (components p) with
  | Resolved _ => Resolved tt
  | Rejected e => Rejected e
  end.

Definition ref_stat (p : string) (t : node) : outcome bool :=
  match walk t (components p) with
  | Resolved (Directory _ _) => Resolved true
  | Resolved (RegFile _ _) => Resolved false
  | Rejected e => Rejected e
  end.

Definition ref_readdir (p : string) (t : node) : outcome (list string) :=
  match walk t (components p) with
  | Resolved (Directory m es) =>
    if can_read m then Resolved (List.map fst es) else Rejected EACCES
  | Resolved (RegFile _ _) => Rejected ENOTDIR
  | Rejected e => Rejected e
  end.

Definition ref_readFile (p : string) (t : node) : outcome string :=
  match walk t (components p) with
  | Resolved (RegFile m content) =>
    if can_read m then Resolved content else Rejected EACCES
  | Resolved (Directory _ _) => Rejected EISDIR
  | Rejected e => Rejected e
  end.

(** What [mkdir] does to the entry: there must be none, and the parent must
    be writable. *)
Definition make_directory (parent : mode) (old : option node)
  : outcome (option node) :=
  match old with
  | Some _ => Rejected EEXIST
  | None =>
    if can_write parent then Resolved (Some (Directory rwx []))
    else Rejected EACCES
  end.

Definition ref_mkdir (p : string) (t : node) : outcome unit * node :=
  match components p with
  | [] => (Rejected EEXIST, t)
  | cs => commit t (update t cs make_directory)
  end.

Definition ref_writeFile (p content : string) (t : node)
  : outcome unit * node :=
  match components p with
  | [] => (Rejected EISDIR, t)
  | cs =>
    commit t (update t cs (fun parent old =>
      match old with
      | Some (RegFile m _) =>
        if can_write m then Resolved (Some (RegFile m content))
        else Rejected EACCES
      | Some (Directory _ _) => Rejected EISDIR
      | None =>
        if can_write parent
        then Resolved (Some (RegFile
               {| can_read := true; can_write := true; can_search := false |}
               content))
        else Rejected EACCES
      end))
  end.

Definition ref_unlink (p : string) (t : node) : outcome unit * node :=
  commit t (update t (components p) (fun parent old =>
    match old with
    | Some (RegFile _ _) =>
      if can_write parent then Resolved None else Rejected EACCES
    | Some (Directory _ _) => Rejected EISDIR
    | None => Rejected ENOENT
    end)).

(** What [rm] does to the entry: it must exist, the parent must be
    writable and the node removable. *)
Definition remove_recursively (parent : mode) (old : option node)
  : outcome (option node) :=
  match old with
  | Some n =>
    if can_write parent && removable n then Resolved None
    else Rejected EACCES
  | None => Rejected ENOENT
  end.

Definition ref_rm (p : string) (t : node) : outcome unit * node :=
  commit t (update t (components p) remove_recursively).

Fixpoint is_prefix (a b : list string) : bool :=
  match a, b with
  | [], _ => true
  | x :: a', y :: b' => String.eqb x y && is_prefix a' b'
  | _ :: _, [] => false
  end.

(** Whether an entry may be replaced by a renamed node. *)
Definition replaceable (target : outcome node) (n : node) : outcome unit :=
  match target, n with
  | Rejected _, _ => Resolved tt
  | Resolved (RegFile _ _), RegFile _ _ => Resolved tt
  | Resolved (RegFile _ _), Directory _ _ => Rejected ENOTDIR
  | Resolved (Directory _ _), RegFile _ _ => Rejected EISDIR
  | Resolved (Directory _ []), Directory _ _ => Resolved tt
  | Resolved (Directory _ (_ :: _)), Directory _ _ => Rejected ENOTEMPTY
  end.

Definition ref_rename (old new : string) (t : node) : outcome unit * node :=
  let co := components old in
  let cn := components new in
  match co, cn with
  | [], _ => (Rejected EBUSY, t)
  | _, [] => (Rejected EBUSY, t)
  | _, _ =>
    match walk t co with
    | Rejected e => (Rejected e, t)
    | Resolved n =>
      if is_prefix co cn && is_prefix cn co then (Resolved tt, t)
      else if is_prefix co cn then (Rejected EINVAL, t)
      else
        match replaceable (walk t cn) n with
        | Rejected e => (Rejected e, t)
        | Resolved _ =>
          let unlinked := update t co (fun parent _ =>
            if can_write parent then Resolved None else Rejected EACCES) in
          match unlinked with
          | Rejected e => (Rejected e, t)
          | Resolved t1 =>
            commit t (update t1 cn (fun parent _ =>
              if can_write parent then Resolved (Some n)
              else Rejected EACCES))
          end
        end
    end
  end.

#[export] Instance ref_fs : FsPromises := {|
  fs := node;
  access := ref_access;
  stat_isDirectory := ref_stat;
  readdir := ref_readdir;
  readFile := ref_readFile;
  mkdir := ref_mkdir;
  rename := ref_rename;
  rm_recursive := ref_rm;
  writeFile := ref_writeFile;
  unlink := ref_unlink
|}.

(** The POSIX [path] functions, on the last component of a path. *)
Definition ref_basename (p : string) : string :=
  List.last (List.filter (fun c => negb (String.eqb c "")) (split_slash p ""))
            "".

(** The text before the last dot and the text from it on. *)
Fixpoint last_dot (s : list ascii) : option (list ascii * list ascii) :=
  match s with
  | [] => None
  | c :: s' =>
    match last_dot s' with
    | Some (stem, ext) => Some (c :: stem, ext)
    | None => if is_char c "." then Some ([], c :: s') else None
    end
  end.

Definition split_ext (base : string) : string * string :=
  if String.eqb base ".." then (base, "")
  else
    match last_dot (list_ascii_of_string base) with
    | Some ((_ :: _) as stem, ext) =>
      (string_of_list_ascii stem, string_of_list_ascii ext)
    | _ => (base, "")
    end.

Definition ref_extname (p : string) : string := snd (split_ext (ref_basename p)).

Definition ref_parse_name (p : string) : string :=
  fst (split_ext (ref_basename p)).

Fixpoint strip_suffix (s e : string) : option string :=
  if String.eqb s e then Some ""
  else
    match s with
    | EmptyString => None
    | String c s' =>
      match strip_suffix s' e with
      | Some stem => Some (String c stem)
      | None => None
      end
    end.

Definition ref_basename_ext (p e : string) : string :=
  let b := ref_basename p in
  if String.eqb e "" then b
  else if String.eqb e p then ""
  else
    match strip_suffix b e with
    | Some (String _ _ as stem) => stem
    | _ => b
    end.

#[export] Instance ref_path : NodePath := {|
  basename := ref_basename;
  basename_ext := ref_basename_ext;
  extname := ref_extname;
  parse_name := ref_parse_name
|}.

(** A file and a directory with the usual permissions. *)
Definition rw_file (content : string) : node :=
  RegFile {| can_read := true; can_write := true; can_search := false |}
          content.

Definition dir (entries : list (string * node)) : node :=
  Directory rwx entries.

(** An operating system on which every path names a regular file, as a
    synthetic filesystem can answer. *)
#[export] Instance full_fs : FsPromises := {|
  fs := unit;
  access := fun _ _ => Resolved tt;
  stat_isDirectory := fun _ _ => Resolved false;
  readdir := fun _ _ => Rejected ENOTDIR;
  readFile := fun _ _ => Resolved "";
  mkdir := fun _ s => (Rejected EEXIST, s);
  rename := fun _ _ s => (Resolved tt, s);
  rm_recursive := fun _ s => (Resolved tt, s);
  writeFile := fun _ _ s => (Resolved tt, s);
  unlink := fun _ s => (Resolved tt, s)
|}.

(** ** What the statements speak of *)

Section Observations.
Context {os : FsPromises} {np : NodePath}.

(** What [Dir.exists] and [Dir.check] answer in a given state. *)
Definition exists_now (p : string) (st : fs) : bool :=
  match access p st with
  | Resolved _ => true
  | Rejected _ => false
  end.

Definition is_directory_now (p : string) (st : fs) : bool :=
  match stat_isDirectory p st with
  | Resolved b => b
  | Rejected _ => false
  end.

(** The entry [list] builds for an item that is not a directory (or whose
    [stat] fails). *)
Definition file_entry (dirPath item : string) : DirEntry :=
  let filePath := dirPath ++ "/" ++ item in
  {| path := filePath;
     file := true;
     name := parse_name filePath;
     extension := Some (extname filePath);
     nameWithExtension := Some (basename filePath);
     sub := None |}.

(** An entry of a listing of [dirPath] in state [st] stands for [item]. *)
Definition lists_item (dirPath : string) (st : fs) (item : string)
    (e : DirEntry) : Prop :=
  let filePath := dirPath ++ "/" ++ item in
  path e = filePath
  /\ file e = negb (is_directory_now filePath st)
  /\ name e = parse_name filePath
  /\ extension e = (if file e then Some (extname filePath) else None)
  /\ nameWithExtension e = (if file e then Some (basename filePath) else None)
  /\ (file e = true -> sub e = None).

End Observations.

(** The value of [count] when [lastName] makes its attempt number [n]
    (from 0). *)
Definition count_at (n : nat) : N := Nat.iter n incr 0%N.

(** The suffixes as the specification lists them: [-copy], [-copy-2],
    [-copy-3], ...; [copy_suffix k] is the one at position [k] (from 0). *)
Definition copy_suffix (k : nat) : string :=
  match k with
  | O => "-copy"
  | S _ => "-copy-" ++ Number_toString (N.of_nat (S k))
  end.

Definition candidate (baseName extension : string) (k : nat) : string :=
  baseName ++ copy_suffix k ++ extension.

(** What the statements about [move] and about a copy without a source
    need to know of the operating system: a removal that succeeds leaves
    nothing at the path; a [mkdir] that succeeds leaves an empty directory
    there and one that is refused changes nothing.  Nothing is assumed of
    what a [mkdir] does to the paths other than the one it makes: a path
    that goes through the new directory (as [x/../src] does once [x] is
    made) can resolve afterwards where it did not before. *)
Class FsLaws (os : FsPromises) : Prop := {
  rm_removes : forall p st st',
    rm_recursive p st = (Resolved tt, st') -> exists_now p st' = false;
  mkdir_creates : forall p st st',
    mkdir p st = (Resolved tt, st') ->
    is_directory_now p st' = true /\ readdir p st' = Resolved [];
  mkdir_refused : forall p st e st',
    mkdir p st = (Rejected e, st') -> st' = st
}.

(** Whether a promise was fulfilled. *)
Definition resolved {A} (o : outcome A) : bool :=
  match o with
  | Resolved _ => true
  | Rejected _ => false
  end.

(** ** Sample trees *)

Definition unreadable_file (content : string) : node :=
  RegFile {| can_read := false; can_write := true; can_search := false |}
          content.

(** [src] holds a file and a subdirectory with a file. *)
Definition tree_src : node :=
  dir [("src", dir [("f.txt", rw_file "hello");
                    ("sub", dir [("g.txt", rw_file "world")])])].

(** [src] holds a file that cannot be read and one that can. *)
Definition tree_secret : node :=
  dir [("src", dir [("secret.txt", unreadable_file "key");
                    ("f.txt", rw_file "hello")])].


(** [d] can be listed but not searched: [stat] fails on its entries. *)
Definition tree_unsearchable : node :=
  dir [("d", Directory
               {| can_read := true; can_write := true; can_search := false |}
               [("x", rw_file "data")])].

(** The directory [a+b] holds a file. *)
Definition tree_plus : node :=
  dir [("a+b", dir [("f.txt", rw_file "hello")])].

(** The directory [a(b] holds a file. *)
Definition tree_paren : node :=
  dir [("a(b", dir [("f.txt", rw_file "hello")])].

(** [a-copy.txt] exists. *)
Definition tree_a_copy : node :=
  dir [("a-copy.txt", rw_file "")].

(** An empty directory [empty] and a file [f.txt]. *)
Definition tree_empty_dir : node :=
  dir [("empty", dir []); ("f.txt", rw_file "hello")].

(** [tree_src] after [src] was copied to [dst]. *)
Definition tree_src_copied : node :=
  dir [("src", dir [("f.txt", rw_file "hello");
                    ("sub", dir [("g.txt", rw_file "world")])]);
       ("dst", dir [("f.txt", rw_file "hello");
                    ("sub", dir [("g.txt", rw_file "world")])])].

(** [tree_src] after [src] was moved to [dst]. *)
Definition tree_src_moved : node :=
  dir [("dst", dir [("f.txt", rw_file "hello");
                    ("sub", dir [("g.txt", rw_file "world")])])].

(** [tree_secret] after the copy of [src] to [dst]: the unreadable file is
    missing from the copy. *)
Definition tree_secret_copied : node :=
  dir [("src", dir [("secret.txt", unreadable_file "key");
                    ("f.txt", rw_file "hello")]);
       ("dst", dir [("f.txt", rw_file "hello")])].



(** [tree_plus] after the copy of [a+b] to [dst]. *)
Definition tree_plus_copied : node :=
  dir [("a+b", dir [("f.txt", rw_file "hello")]); ("dst", dir [])].

(** [tree_paren] after the attempt to copy [a(b] to [dst]. *)
Definition tree_paren_copied : node :=
  dir [("a(b", dir [("f.txt", rw_file "hello")]); ("dst", dir [])].

(** [tree_src] with a new empty directory [dst]. *)
Definition tree_src_with_dst : node :=
  dir [("src", dir [("f.txt", rw_file "hello");
                    ("sub", dir [("g.txt", rw_file "world")])]);
       ("dst", dir [])].

(** ** Trees and their copies

    What the statements about a whole copy on the reference filesystem
    speak of. *)

(** The name of one directory entry: not empty, without a slash, and
    neither [.] nor [..]. *)
Definition has_slash (s : string) : bool :=
  existsb (fun c => is_char c "/") (list_ascii_of_string s).

Definition simple_name (n : string) : bool :=
  negb (has_slash n) && negb (String.eqb n "") && negb (String.eqb n ".")
  && negb (String.eqb n "..").

(** The tree a copy makes of a tree: the same names and contents in the
    same order, every directory and file with the permissions [mkdir] and
    [writeFile] give to what they create. *)
Fixpoint clone (n : node) : node :=
  match n with
  | RegFile _ content => rw_file content
  | Directory _ es =>
    Directory rwx (List.map (fun e => (fst e, clone (snd e))) es)
  end.

Definition clone_entries (es : list (string * node)) : list (string * node) :=
  List.map (fun e => (fst e, clone (snd e))) es.

(** The levels of directories in a tree. *)
Fixpoint height (n : node) : nat :=
  match n with
  | RegFile _ _ => 0
  | Directory _ es =>
    S (List.fold_right (fun e h => Nat.max (height (snd e)) h) 0 es)
  end.

Fixpoint distinct (l : list string) : bool :=
  match l with
  | [] => true
  | x :: l' => negb (existsb (String.eqb x) l') && distinct l'
  end.

(** What [copy] needs of the tree at the source path [sp] to copy all of
    it: files can be read; directories can be read and searched, their
    paths are plain patterns, and their entries have distinct simple names
    in which the path of the directory does not occur again. *)
Fixpoint copyable (sp : string) (n : node) : bool :=
  match n with
  | RegFile m _ => can_read m
  | Directory m es =>
    can_read m && can_search m && plain sp && negb (String.eqb sp "")
    && distinct (List.map fst es)
    && forallb (fun e =>
                  simple_name (fst e)
                  && negb (occurs sp ("/" ++ fst e))
                  && copyable (sp ++ "/" ++ fst e) (snd e)) es
  end.

Definition is_directory (n : node) : bool :=
  match n with
  | Directory _ _ => true
  | RegFile _ _ => false
  end.

(** Two resolved paths part ways: at some component, before either ends,
    they differ. *)
Fixpoint diverging (a b : list string) : bool :=
  match a, b with
  | x :: a', y :: b' => if String.eqb x y then diverging a' b' else true
  | _, _ => false
  end.

(** The tree with the node at an existing path replaced. *)
Fixpoint set_node (t : node) (cs : list string) (x : node) : node :=
  match cs with
  | [] => x
  | c :: cs' =>
    match t with
    | RegFile _ _ => t
    | Directory m es =>
      match get_entry c es with
      | Some k => Directory m (put_entry c (set_node k cs' x) es)
      | None => t
      end
    end
  end.

(** * Properties *)

(** ** The models on small inputs *)

Example replace_plain :
  String_replace "src/a.txt" "src" "dst" = Parsed "dst/a.txt".
Proof. reflexivity. Qed.

Example replace_every_occurrence :
  String_replace "a/a" "a" "d" = Parsed "d/d".
Proof. reflexivity. Qed.

Example replace_empty_pattern :
  String_replace "abc" "" "X" = Parsed "XaXbXcX".
Proof. reflexivity. Qed.

Example replace_dot_is_a_wildcard :
  String_replace "a.b/axb" "a.b" "dst" = Parsed "dst/dst".
Proof. reflexivity. Qed.

Example replace_plus_is_a_quantifier :
  String_replace "a+b/f.txt" "a+b" "dst" = Parsed "a+b/f.txt".
Proof. reflexivity. Qed.

Example replace_open_group_throws :
  String_replace "a(b/f.txt" "a(b" "dst" = BadSyntax "Unterminated group".
Proof. reflexivity. Qed.

Example replace_star_backtracks :
  String_replace "xaaab-aab-b" "a*ab" "R" = Parsed "xR-R-b".
Proof. reflexivity. Qed.

Example components_of_a_path :
  components "./a//b/../c.txt" = ["a"; "c.txt"].
Proof. reflexivity. Qed.

Example path_functions :
  ref_basename "d/a.tar.gz" = "a.tar.gz" /\ ref_extname "d/a.tar.gz" = ".gz"
  /\ ref_parse_name "d/a.tar.gz" = "a.tar"
  /\ ref_parse_name "d/.profile" = ".profile" /\ ref_extname "d/.profile" = ""
  /\ ref_basename_ext "d/a.txt" ".txt" = "a".
Proof. repeat split; reflexivity. Qed.

(** ** The wrappers never throw *)

Section Wrappers.
Context {os : FsPromises} {np : NodePath}.

Lemma bind_Ret {A B} (m : M fs A) (k : A -> M fs B) st b st' :
  bind m k st = Ret b st' ->
  exists a st1, m st = Ret a st1 /\ k a st1 = Ret b st'.
Proof.
  unfold bind. destruct (m st) as [a st1 | e st1 | | ]; try discriminate.
  intros H. exists a, st1. split; [reflexivity | exact H].
Qed.

Lemma bind_run {A B} (m : M fs A) (k : A -> M fs B) st a st1 :
  m st = Ret a st1 -> bind m k st = k a st1.
Proof. unfold bind. intros ->. reflexivity. Qed.

Lemma Dir_exists_run p st : Dir_exists p st = Ret (exists_now p st) st.
Proof.
  unfold Dir_exists, exists_now, try_catch, bind, await_read, ret.
  destruct (access p st); reflexivity.
Qed.

Lemma Dir_check_run p st : Dir_check p st = Ret (is_directory_now p st) st.
Proof.
  unfold Dir_check, is_directory_now, try_catch, bind, await_read, ret.
  destruct (stat_isDirectory p st); reflexivity.
Qed.

Lemma Dir_create_run p st :
  Dir_create p st = Ret (resolved (fst (mkdir p st))) (snd (mkdir p st)).
Proof.
  unfold Dir_create, try_catch, bind, await_write, ret.
  destruct (mkdir p st) as [[ [] | e] st1]; reflexivity.
Qed.

Lemma Dir_rename_run p q st :
  Dir_rename p q st
  = Ret (resolved (fst (rename p q st))) (snd (rename p q st)).
Proof.
  unfold Dir_rename, try_catch, bind, await_write, ret.
  destruct (rename p q st) as [[ [] | e] st1]; reflexivity.
Qed.

Lemma Dir_delete_run p st :
  Dir_delete p st
  = Ret (resolved (fst (rm_recursive p st))) (snd (rm_recursive p st)).
Proof.
  unfold Dir_delete, try_catch, bind, await_write, ret.
  destruct (rm_recursive p st) as [[ [] | e] st1]; reflexivity.
Qed.

Lemma File_read_run p st :
  File_read p st
  = Ret (match readFile p st with
         | Resolved content =>
           ReadOk (basename_ext p (extname p)) content (extname p)
                  (basename_ext p (extname p) ++ extname p)
         | Rejected e => ReadFailed e
         end) st.
Proof.
  unfold File_read, try_catch, bind, await_read, ret.
  destruct (readFile p st); reflexivity.
Qed.

Lemma File_create_run p content st :
  File_create p content st
  = Ret (match fst (writeFile p content st) with
         | Resolved _ => {| create := true; create_error := None |}
         | Rejected e => {| create := false; create_error := Some e |}
         end) (snd (writeFile p content st)).
Proof.
  unfold File_create, try_catch, bind, await_write, ret.
  destruct (writeFile p content st) as [[ [] | e] st1]; reflexivity.
Qed.

(** [File.copy] in closed form: [true] after a successful read, whatever
    the write did, and [undefined] after a failed read. *)
Lemma File_copy_run old new st :
  File_copy old new st
  = match readFile old st with
    | Resolved content =>
      Ret (VBool true) (snd (writeFile new content st))
    | Rejected _ => Ret VUndefined st
    end.
Proof.
  unfold File_copy, try_catch.
  rewrite (bind_run _ _ _ (File_read_run old st)).
  destruct (readFile old st) as [content | e]; [ | reflexivity].
  rewrite (bind_run _ _ _ (File_create_run new content st)).
  reflexivity.
Qed.

(** [File.rename] in closed form. *)
Lemma File_rename_run old new st :
  File_rename old new st
  = if is_directory_now old st
    then Ret {| renamed := false;
                rename_error := Some (JsError "It is not a valid file.") |}
             st
    else Ret {| renamed := true; rename_error := None |}
             (snd (rename old new st)).
Proof.
  unfold File_rename, try_catch.
  rewrite (bind_run _ _ _ (Dir_check_run old st)).
  destruct (is_directory_now old st); [reflexivity | ].
  unfold bind at 1. unfold ret at 1.
  rewrite (bind_run _ _ _ (Dir_rename_run old new st)).
  reflexivity.
Qed.

End Wrappers.

(** ** Listing *)

Section Listing.
Context {os : FsPromises} {np : NodePath}.

(** A run that, when it returns, has left the state as it was and returned
    a value that satisfies [P], and that does not throw. *)
Definition quiet_result {A} (P : A -> Prop) (st : fs) (r : result fs A)
  : Prop :=
  match r with
  | Ret a st' => st' = st /\ P a
  | Diverge => True
  | Thrown _ _ => False
  | Unmodelled => False
  end.

Definition quiet (self : string -> bool -> M fs (list DirEntry)) : Prop :=
  forall p b st, quiet_result (fun _ => True) st (self p b st).

Lemma list_item_quiet self dirPath listSubPath item st :
  quiet self ->
  quiet_result (lists_item dirPath st item) st
               (list_item self dirPath listSubPath item st).
Proof.
  intros Hself. unfold list_item.
  rewrite (bind_run _ _ _ (Dir_check_run _ st)).
  destruct (listSubPath && is_directory_now (dirPath ++ "/" ++ item) st)
    eqn:Hrec.
  - unfold bind at 1. unfold bind at 1.
    specialize (Hself (dirPath ++ "/" ++ item) true st).
    destruct (self (dirPath ++ "/" ++ item) true st) as [l st1 | | | ];
      simpl in *; try contradiction; try exact I.
    destruct Hself as [-> _]. unfold ret.
    apply andb_prop in Hrec. destruct Hrec as [_ Hdir].
    split; [reflexivity | ].
    unfold lists_item; simpl. rewrite Hdir. simpl.
    repeat split; try reflexivity. discriminate.
  - unfold bind, ret. split; [reflexivity | ].
    unfold lists_item; simpl.
    destruct (is_directory_now (dirPath ++ "/" ++ item) st); simpl;
      repeat split; reflexivity.
Qed.

Lemma list_loop_quiet self dirPath listSubPath st :
  quiet self ->
  forall items contents,
    quiet_result
      (fun es => exists new, es = (contents ++ new)%list
                 /\ Forall2 (lists_item dirPath st) items new)
      st (list_loop self dirPath listSubPath items contents st).
Proof.
  intros Hself. induction items as [ | item rest IH]; intros contents; simpl.
  - unfold ret. split; [reflexivity | ].
    exists []. rewrite app_nil_r. split; [reflexivity | constructor].
  - pose proof (list_item_quiet dirPath listSubPath item st Hself) as Hitem.
    unfold bind at 1.
    destruct (list_item self dirPath listSubPath item st) as [e st1 | | | ];
      simpl in *; try contradiction; try exact I.
    destruct Hitem as [-> He].
    specialize (IH (contents ++ [e])%list).
    destruct (list_loop self dirPath listSubPath rest (contents ++ [e]) st)
      as [es st1 | | | ]; simpl in *; try contradiction; try exact I.
    destruct IH as [-> [new [-> Hnew]]].
    split; [reflexivity | ].
    exists (e :: new). rewrite <- app_assoc. simpl.
    split; [reflexivity | constructor; assumption].
Qed.

(** What [list] returns, when it returns: one entry per item of the
    directory, in order, or nothing when [readdir] fails. *)
Definition listing_of (dirPath : string) (st : fs) (es : list DirEntry)
  : Prop :=
  match readdir dirPath st with
  | Resolved items => Forall2 (lists_item dirPath st) items es
  | Rejected _ => es = []
  end.

Lemma Dir_list_quiet fuel :
  forall dirPath listSubPath st,
    quiet_result (listing_of dirPath st) st
                 (Dir_list fuel dirPath listSubPath st).
Proof.
  induction fuel as [ | f IH]; intros dirPath listSubPath st; simpl.
  - exact I.
  - assert (Hself : quiet (Dir_list f)).
    { intros p b s. specialize (IH p b s).
      destruct (Dir_list f p b s); simpl in *; try assumption.
      split; [apply IH | exact I]. }
    unfold try_catch, bind at 1, await_read, listing_of.
    destruct (readdir dirPath st) as [items | e].
    + pose proof (list_loop_quiet dirPath listSubPath st Hself items [])
        as Hloop.
      destruct (list_loop (Dir_list f) dirPath listSubPath items [] st)
        as [es st1 | | | ]; simpl in *; try contradiction; try exact I.
      destruct Hloop as [-> [new [-> Hnew]]]. split; [reflexivity | exact Hnew].
    + unfold ret. split; reflexivity.
Qed.

(** A listing that does not descend needs no fuel beyond the first unit. *)
Lemma list_item_flat self dirPath st item :
  exists e, list_item self dirPath false item st = Ret e st.
Proof.
  unfold list_item.
  rewrite (bind_run _ _ _ (Dir_check_run _ st)).
  simpl. unfold bind, ret. eexists. reflexivity.
Qed.

Lemma list_loop_flat self dirPath st items :
  forall contents,
    exists new,
      list_loop self dirPath false items contents st
      = Ret (contents ++ new)%list st.
Proof.
  induction items as [ | item rest IH]; intros contents; simpl.
  - exists []. rewrite app_nil_r. reflexivity.
  - destruct (list_item_flat self dirPath st item) as [e He].
    rewrite (bind_run _ _ _ He).
    destruct (IH (contents ++ [e])%list) as [new Hnew]. exists (e :: new).
    rewrite Hnew, <- app_assoc. reflexivity.
Qed.

Lemma Dir_list_flat_returns fuel dirPath st :
  exists entries, Dir_list (S fuel) dirPath false st = Ret entries st.
Proof.
  simpl. unfold try_catch, bind at 1, await_read.
  destruct (readdir dirPath st) as [items | e].
  - destruct (list_loop_flat (Dir_list fuel) dirPath st items []) as [new ->].
    exists new. reflexivity.
  - exists []. reflexivity.
Qed.

Lemma Dir_list_rejected fuel dirPath listSubPath st e :
  readdir dirPath st = Rejected e ->
  Dir_list (S fuel) dirPath listSubPath st = Ret [] st.
Proof.
  intros H. simpl. unfold try_catch, bind, await_read. rewrite H. reflexivity.
Qed.

Lemma Dir_list_no_items fuel dirPath listSubPath st :
  readdir dirPath st = Resolved [] ->
  Dir_list (S fuel) dirPath listSubPath st = Ret [] st.
Proof.
  intros H. simpl. unfold try_catch, bind, await_read. rewrite H. reflexivity.
Qed.

Lemma Forall2_In_left {A B} (R : A -> B -> Prop) l1 l2 a
    (H : Forall2 R l1 l2) (Ha : In a l1) :
  exists b, In b l2 /\ R a b.
Proof.
  revert Ha.
  induction H as [ | x y l1 l2 Hxy _ IH]; simpl; [contradiction | ].
  intros [-> | Hin].
  - exists y. split; [left; reflexivity | assumption].
  - destruct (IH Hin) as [b [Hb HR]]. exists b. split; [right | ]; assumption.
Qed.

Lemma lists_item_file dirPath st item e
    (He : lists_item dirPath st item e)
    (Hdir : is_directory_now (dirPath ++ "/" ++ item) st = false) :
  e = file_entry dirPath item.
Proof.
  revert He Hdir.
  unfold lists_item, file_entry. destruct e as [p f n x nx s]; simpl.
  intros (-> & Hf & -> & Hx & Hnx & Hs) Hdir.
  rewrite Hdir in Hf. simpl in Hf. subst f.
  rewrite Hx, Hnx, (Hs eq_refl). reflexivity.
Qed.

End Listing.

(** ** [Dir.list] *)

(** C7: [Dir.list] never throws, whatever the fuel, the path and the state;
    when the enumeration ([readdir]) fails it returns the empty array and
    leaves the state alone, which is exactly what it returns for a directory
    that has no entries: the two cannot be told apart.  A listing without
    descent returns on every input. *)
Theorem Dir_list_swallows_errors
    {os : FsPromises} {np : NodePath} (dirPath : string) (listSubPath : bool)
    (st : fs) :
  (forall fuel e st', Dir_list fuel dirPath listSubPath st <> Thrown e st')
  /\ (forall fuel e,
        readdir dirPath st = Rejected e ->
        Dir_list (S fuel) dirPath listSubPath st = Ret [] st)
  /\ (forall fuel,
        readdir dirPath st = Resolved [] ->
        Dir_list (S fuel) dirPath listSubPath st = Ret [] st)
  /\ (forall fuel,
        exists entries, Dir_list (S fuel) dirPath false st = Ret entries st).
Proof.
  split; [ | split; [ | split]].
  - intros fuel e st' H.
    pose proof (Dir_list_quiet fuel dirPath listSubPath st) as Hq.
    rewrite H in Hq. exact Hq.
  - intros fuel e H. exact (Dir_list_rejected fuel dirPath listSubPath st H).
  - intros fuel H. exact (Dir_list_no_items fuel dirPath listSubPath st H).
  - intros fuel. exact (Dir_list_flat_returns fuel dirPath st).
Qed.

(** The three cases of C7 on the reference filesystem: a missing path, a
    regular file and an empty directory all list as the empty array. *)
Example Dir_list_empty_or_failed :
  readdir (FsPromises := ref_fs) "missing" tree_empty_dir = Rejected ENOENT
  /\ readdir (FsPromises := ref_fs) "f.txt" tree_empty_dir = Rejected ENOTDIR
  /\ readdir (FsPromises := ref_fs) "empty" tree_empty_dir = Resolved []
  /\ Dir_list (os := ref_fs) 1 "missing" false tree_empty_dir
     = Ret [] tree_empty_dir
  /\ Dir_list (os := ref_fs) 1 "f.txt" false tree_empty_dir
     = Ret [] tree_empty_dir
  /\ Dir_list (os := ref_fs) 1 "empty" false tree_empty_dir
     = Ret [] tree_empty_dir.
Proof. repeat split; reflexivity. Qed.

(** C9: a child of the listed directory on which [stat] fails is listed as
    a file.  [Dir.check] answers false for it, as it does for a regular
    file; the entry has [file] true and carries [extension] and
    [nameWithExtension].  This holds of every listing that returns, and a
    listing without descent always returns. *)
Theorem Dir_list_stat_failure_is_file
    {os : FsPromises} {np : NodePath} (dirPath : string) (st : fs)
    (items : list string) (item : string) (err : js_error) :
  readdir dirPath st = Resolved items ->
  In item items ->
  stat_isDirectory (dirPath ++ "/" ++ item) st = Rejected err ->
  Dir_check (dirPath ++ "/" ++ item) st = Ret false st
  /\ (forall p, stat_isDirectory p st = Resolved false ->
                Dir_check p st = Ret false st)
  /\ (forall fuel listSubPath entries st',
        Dir_list fuel dirPath listSubPath st = Ret entries st' ->
        In (file_entry dirPath item) entries)
  /\ (forall fuel,
        exists entries,
          Dir_list (S fuel) dirPath false st = Ret entries st
          /\ In (file_entry dirPath item) entries).
Proof.
  intros Hdir Hin Hstat.
  assert (Hnow : is_directory_now (dirPath ++ "/" ++ item) st = false)
    by (unfold is_directory_now; rewrite Hstat; reflexivity).
  assert (Hall : forall fuel listSubPath entries st',
             Dir_list fuel dirPath listSubPath st = Ret entries st' ->
             In (file_entry dirPath item) entries).
  { intros fuel listSubPath entries st' Hrun.
    pose proof (Dir_list_quiet fuel dirPath listSubPath st) as Hq.
    rewrite Hrun in Hq. destruct Hq as [_ Hq].
    unfold listing_of in Hq. rewrite Hdir in Hq.
    destruct (Forall2_In_left _ Hq Hin) as [e [He Hitem]].
    rewrite <- (lists_item_file Hitem Hnow). exact He. }
  split; [ | split; [ | split]].
  - rewrite Dir_check_run, Hnow. reflexivity.
  - intros p Hp. rewrite Dir_check_run. unfold is_directory_now.
    rewrite Hp. reflexivity.
  - exact Hall.
  - intros fuel. destruct (Dir_list_flat_returns fuel dirPath st) as [es Hes].
    exists es. split; [exact Hes | exact (Hall _ _ _ _ Hes)].
Qed.

(** C9 on the reference filesystem: [d] can be read but not searched, so
    [stat] of [d/x] is refused, and [x] is listed as a file. *)
Lemma Dir_list_stat_failure_witness :
  readdir (FsPromises := ref_fs) "d" tree_unsearchable = Resolved ["x"]
  /\ stat_isDirectory (FsPromises := ref_fs) "d/x" tree_unsearchable
     = Rejected EACCES
  /\ Dir_list (os := ref_fs) 1 "d" false tree_unsearchable
     = Ret [ {| path := "d/x"; file := true; name := "x";
                extension := Some ""; nameWithExtension := Some "x";
                sub := None |} ] tree_unsearchable
  /\ forall fuel listSubPath entries st',
       Dir_list (os := ref_fs) fuel "d" listSubPath tree_unsearchable
       = Ret entries st' ->
       In (file_entry (np := ref_path) "d" "x") entries.
Proof.
  split; [reflexivity | split; [reflexivity | split; [reflexivity | ]]].
  apply (@Dir_list_stat_failure_is_file ref_fs ref_path
           "d" tree_unsearchable ["x"] "x" EACCES).
  - reflexivity.
  - left; reflexivity.
  - reflexivity.
Defined.

(** ** [File.copy] and [File.rename] *)

(** [File.copy] never returns [false]: its [catch] block cannot be reached,
    because [read] and [create] catch every rejection themselves. *)
Lemma File_copy_never_false
    {os : FsPromises} {np : NodePath} (old new : string) (st : fs) :
  (exists st', File_copy old new st = Ret (VBool true) st')
  \/ File_copy old new st = Ret VUndefined st.
Proof.
  rewrite File_copy_run. destruct (readFile old st) as [content | e].
  - left. eexists. reflexivity.
  - right. reflexivity.
Qed.

(** C4, at the inputs where the claim fails: copying a file that does not
    exist returns [undefined], not [false], and a copy whose write is
    refused (the target directory is missing) returns [true] and writes
    nothing. *)
Theorem File_copy_failure_values :
  readFile (FsPromises := ref_fs) "missing.txt" tree_src = Rejected ENOENT
  /\ File_copy (os := ref_fs) "missing.txt" "out.txt" tree_src
     = Ret VUndefined tree_src
  /\ writeFile (FsPromises := ref_fs) "nodir/out.txt" "hello" tree_src
     = (Rejected ENOENT, tree_src)
  /\ File_copy (os := ref_fs) "src/f.txt" "nodir/out.txt" tree_src
     = Ret (VBool true) tree_src.
Proof. repeat split; reflexivity. Qed.

(** C5, at the input where the claim fails: the rename of a path that does
    not exist is rejected by the operating system, [Dir.rename] answers
    false, and [File.rename] still reports [renamed: true] with no error.
    The directory check does produce a failure result. *)
Theorem File_rename_ignores_failed_rename :
  rename (FsPromises := ref_fs) "missing.txt" "new.txt" tree_src
  = (Rejected ENOENT, tree_src)
  /\ Dir_rename (os := ref_fs) "missing.txt" "new.txt" tree_src
     = Ret false tree_src
  /\ File_rename (os := ref_fs) "missing.txt" "new.txt" tree_src
     = Ret {| renamed := true; rename_error := None |} tree_src
  /\ File_rename (os := ref_fs) "src" "new" tree_src
     = Ret {| renamed := false;
              rename_error := Some (JsError "It is not a valid file.") |}
           tree_src.
Proof. repeat split; reflexivity. Qed.

(** The part of C5 that holds on every operating system: a directory is
    refused with an error, and a path that is not one is reported as
    renamed whatever the rename did. *)
Lemma File_rename_cases
    {os : FsPromises} {np : NodePath} (old new : string) (st : fs) :
  (is_directory_now old st = true ->
   File_rename old new st
   = Ret {| renamed := false;
            rename_error := Some (JsError "It is not a valid file.") |} st)
  /\ (is_directory_now old st = false ->
      File_rename old new st
      = Ret {| renamed := true; rename_error := None |}
            (snd (rename old new st))).
Proof.
  rewrite File_rename_run.
  split; intros ->; reflexivity.
Qed.

(** ** [Dir.lastName] *)

Section Strings.

Lemma append_inv_head (a x y : string) : a ++ x = a ++ y -> x = y.
Proof.
  induction a as [ | c a IH]; simpl; intros H; [exact H | ].
  injection H as H. exact (IH H).
Qed.

Lemma length_append (a b : string) :
  String.length (a ++ b) = String.length a + String.length b.
Proof. induction a as [ | c a IH]; simpl; [reflexivity | now rewrite IH]. Qed.

Lemma append_inv_tail (e x : string) : forall y, x ++ e = y ++ e -> x = y.
Proof.
  induction x as [ | c x IH]; intros [ | d y] H; simpl in H.
  - reflexivity.
  - apply (f_equal String.length) in H. simpl in H.
    rewrite length_append in H. lia.
  - apply (f_equal String.length) in H. simpl in H.
    rewrite length_append in H. lia.
  - injection H as -> H. now rewrite (IH y H).
Qed.

Lemma Number_toString_inj (c c' : N) :
  Number_toString c = Number_toString c' -> c = c'.
Proof.
  assert (Hback : forall n,
             match NilZero.uint_of_string (Number_toString n) with
             | Some d => N.of_uint d
             | None => 0%N
             end = n).
  { intros n. unfold Number_toString.
    destruct (N.to_uint n) eqn:Hn;
      try (rewrite NilZero.usu by discriminate;
           rewrite <- Hn; apply DecimalN.Unsigned.of_to).
    rewrite NilZero.usu_nil.
    rewrite <- (DecimalN.Unsigned.of_to n), Hn. reflexivity. }
  intros H. rewrite <- (Hback c), <- (Hback c'), H. reflexivity.
Qed.

End Strings.

Section LastName.
Context {os : FsPromises} {np : NodePath}.

Lemma lastName_loop_step f baseName extension count st :
  lastName_loop (S f) baseName extension count st
  = if exists_now (findName baseName extension count) st
    then lastName_loop f baseName extension (incr count) st
    else Ret (findName baseName extension count) st.
Proof.
  cbn [lastName_loop]. rewrite (bind_run _ _ _ (Dir_exists_run _ st)).
  destruct (exists_now (findName baseName extension count) st); reflexivity.
Qed.

(** The loop returns the name of the first attempt that finds nothing,
    given fuel for that many attempts. *)
Lemma lastName_loop_finds baseName extension st :
  forall n fuel count,
    n < fuel ->
    (forall j, j < n ->
       exists_now (findName baseName extension (Nat.iter j incr count)) st
       = true) ->
    exists_now (findName baseName extension (Nat.iter n incr count)) st
    = false ->
    lastName_loop fuel baseName extension count st
    = Ret (findName baseName extension (Nat.iter n incr count)) st.
Proof.
  induction n as [ | n IH]; intros [ | f] count Hlt Hbefore Hfree; try lia.
  - rewrite lastName_loop_step. simpl in Hfree. rewrite Hfree. reflexivity.
  - rewrite lastName_loop_step.
    pose proof (Hbefore 0 ltac:(lia)) as Hhere. simpl in Hhere.
    rewrite Hhere.
    rewrite Nat.iter_succ_r in *. apply IH; [lia | | exact Hfree].
    intros j Hj. rewrite <- Nat.iter_succ_r. apply Hbefore. lia.
Qed.

(** Conversely, a returned name is the name of an attempt that found
    nothing after attempts that all found something. *)
Lemma lastName_loop_returned baseName extension st :
  forall fuel count r st',
    lastName_loop fuel baseName extension count st = Ret r st' ->
    st' = st
    /\ exists n,
         n < fuel
         /\ r = findName baseName extension (Nat.iter n incr count)
         /\ exists_now r st = false
         /\ forall j, j < n ->
              exists_now (findName baseName extension (Nat.iter j incr count))
                         st = true.
Proof.
  induction fuel as [ | f IH]; intros count r st' H; [discriminate | ].
  rewrite lastName_loop_step in H.
  destruct (exists_now (findName baseName extension count) st) eqn:Hhere.
  - destruct (IH _ _ _ H) as [-> [n (Hn & -> & Hfree & Hbefore)]].
    split; [reflexivity | ]. exists (S n). rewrite Nat.iter_succ_r.
    repeat split; [lia | exact Hfree | ].
    intros [ | j] Hj; [exact Hhere | ].
    rewrite Nat.iter_succ_r. apply Hbefore. lia.
  - injection H as <- <-. split; [reflexivity | ]. exists 0.
    repeat split; [lia | exact Hhere | ]. intros j Hj. lia.
Qed.

(** When every attempt finds its name taken the loop runs through any
    amount of fuel. *)
Lemma lastName_loop_runs_on baseName extension st :
  forall fuel count,
    (forall n,
       exists_now (findName baseName extension (Nat.iter n incr count)) st
       = true) ->
    lastName_loop fuel baseName extension count st = Diverge.
Proof.
  induction fuel as [ | f IH]; intros count Hall; [reflexivity | ].
  rewrite lastName_loop_step.
  pose proof (Hall 0) as Hhere. simpl in Hhere. rewrite Hhere. apply IH.
  intros n. rewrite <- Nat.iter_succ_r. apply Hall.
Qed.

End LastName.

Lemma count_at_closed (n : nat) : count_at n = N.min (N.of_nat n) max_safe.
Proof.
  unfold count_at. induction n as [ | n IH].
  - reflexivity.
  - cbn [Nat.iter nat_rect]. fold (Nat.iter n incr 0%N). rewrite IH.
    unfold incr. assert (Hpos : (0 < max_safe)%N) by reflexivity.
    destruct (N.ltb_spec (N.min (N.of_nat n) max_safe) max_safe); lia.
Qed.

(** The attempts name the suffixes of the specification: attempts 0 and 1
    both probe [-copy], attempt [k + 1] probes position [k]. *)
Lemma findName_candidate (baseName extension : string) (k : nat) :
  (N.of_nat k < max_safe)%N ->
  findName baseName extension (count_at (S k))
  = candidate baseName extension k.
Proof.
  intros Hk. rewrite count_at_closed.
  replace (N.min (N.of_nat (S k)) max_safe) with (N.of_nat (S k)) by lia.
  unfold findName, candidate, copy_suffix.
  destruct k as [ | k].
  - reflexivity.
  - replace (1 <? N.of_nat (S (S k)))%N with true
      by (symmetry; apply N.ltb_lt; lia).
    reflexivity.
Qed.

Lemma findName_first (baseName extension : string) :
  findName baseName extension (count_at 0) = candidate baseName extension 0.
Proof. reflexivity. Qed.

Lemma findName_never_index_1 (baseName extension : string) (count : N) :
  findName baseName extension count <> baseName ++ "-copy-1" ++ extension.
Proof.
  unfold findName. destruct (N.ltb_spec 1 count) as [Hc | Hc]; intros H;
    apply append_inv_head in H; simpl in H.
  - injection H as H.
    change (String "1" extension) with ("1" ++ extension) in H.
    apply append_inv_tail in H.
    change "1" with (Number_toString 1) in H.
    apply Number_toString_inj in H. lia.
  - injection H as H. apply (f_equal String.length) in H. simpl in H. lia.
Qed.

(** C2: [lastName] returns the first name, in the order [-copy], [-copy-2],
    [-copy-3], ..., that does not exist (for a position below 2^53, and
    given fuel for the attempts: position [k] is reached by attempt [k + 1],
    after the second probe of [-copy]); no attempt ever uses the index 1;
    and for the base [a] and the extension [.txt] it returns [a-copy.txt]
    when that name is free and [a-copy-2.txt] when only the former is
    taken. *)
Theorem lastName_first_free_suffix
    {os : FsPromises} {np : NodePath} (st : fs) :
  (forall baseName extension k fuel,
     (N.of_nat k < max_safe)%N ->
     k + 2 <= fuel ->
     (forall j, j < k ->
        exists_now (candidate baseName extension j) st = true) ->
     exists_now (candidate baseName extension k) st = false ->
     Dir_lastName fuel baseName extension st
     = Ret (candidate baseName extension k) st)
  /\ (forall baseName extension count,
        findName baseName extension count
        <> baseName ++ "-copy-1" ++ extension)
  /\ (exists_now "a-copy.txt" st = false ->
      Dir_lastName 1 "a" ".txt" st = Ret "a-copy.txt" st)
  /\ (exists_now "a-copy.txt" st = true ->
      exists_now "a-copy-2.txt" st = false ->
      Dir_lastName 3 "a" ".txt" st = Ret "a-copy-2.txt" st).
Proof.
  assert (Hgen : forall baseName extension k fuel,
             (N.of_nat k < max_safe)%N ->
             k + 2 <= fuel ->
             (forall j, j < k ->
                exists_now (candidate baseName extension j) st = true) ->
             exists_now (candidate baseName extension k) st = false ->
             Dir_lastName fuel baseName extension st
             = Ret (candidate baseName extension k) st).
  { intros baseName extension k fuel Hk Hfuel Hbefore Hfree.
    unfold Dir_lastName. destruct k as [ | k].
    - rewrite <- findName_first.
      apply (lastName_loop_finds baseName extension st (n := 0));
        [lia | intros j Hj; lia | exact Hfree].
    - rewrite <- (findName_candidate baseName extension (S k) Hk).
      apply (lastName_loop_finds baseName extension st (n := S (S k))).
      + lia.
      + intros [ | j] Hj.
        * apply (Hbefore 0). lia.
        * fold (count_at (S j)). rewrite findName_candidate by lia.
          apply Hbefore. lia.
      + fold (count_at (S (S k))).
        rewrite (findName_candidate baseName extension (S k) Hk).
        exact Hfree. }
  split; [exact Hgen | split; [ | split]].
  - intros baseName extension count. apply findName_never_index_1.
  - intros Hfree. unfold Dir_lastName. rewrite lastName_loop_step.
    change (findName "a" ".txt" 0) with "a-copy.txt". rewrite Hfree.
    reflexivity.
  - intros Htaken Hfree.
    apply (Hgen "a" ".txt" 1 3); [reflexivity | lia | | exact Hfree].
    intros [ | j] Hj; [exact Htaken | lia].
Qed.

(** C2 on the reference filesystem: with [a-copy.txt] in place the name
    returned is [a-copy-2.txt], and in an empty directory it is
    [a-copy.txt]. *)
Lemma lastName_first_free_suffix_witness :
  (exists_now (os := ref_fs) "a-copy.txt" tree_a_copy = true
   /\ exists_now (os := ref_fs) "a-copy-2.txt" tree_a_copy = false
   /\ Dir_lastName (os := ref_fs) 3 "a" ".txt" tree_a_copy
      = Ret "a-copy-2.txt" tree_a_copy)
  /\ (exists_now (os := ref_fs) "a-copy.txt" (dir []) = false
      /\ Dir_lastName (os := ref_fs) 1 "a" ".txt" (dir [])
         = Ret "a-copy.txt" (dir [])).
Proof.
  pose proof (@lastName_first_free_suffix ref_fs ref_path tree_a_copy)
    as (_ & _ & _ & Hsecond).
  pose proof (@lastName_first_free_suffix ref_fs ref_path (dir []))
    as (_ & _ & Hfirst & _).
  split; [split; [reflexivity | split; [reflexivity | ]] | split].
  - apply Hsecond; reflexivity.
  - reflexivity.
  - apply Hfirst; reflexivity.
Defined.

(** The names the attempts probe are the candidates at the positions below
    2^53 and no others: attempt 0 probes position 0, attempt [k + 1] probes
    position [k], and from attempt 2^53 on [count] stays where it is and the
    name probed is the one of position [2^53 - 1]. *)
Lemma attempt_is_candidate (baseName extension : string) (n : nat) :
  exists k,
    (N.of_nat k < max_safe)%N
    /\ k <= Nat.pred n
    /\ findName baseName extension (count_at n)
       = candidate baseName extension k.
Proof.
  assert (Hpos : (0 < max_safe)%N) by reflexivity.
  destruct n as [ | m].
  - exists 0. split; [exact Hpos | split; [lia | apply findName_first]].
  - destruct (N.ltb_spec (N.of_nat m) max_safe) as [Hm | Hm].
    + exists m. split; [exact Hm | split; [simpl; lia | ]].
      apply findName_candidate. exact Hm.
    + remember (N.to_nat (N.pred max_safe)) as k0 eqn:Hk0.
      assert (Hk : N.of_nat k0 = N.pred max_safe)
        by (rewrite Hk0; apply N2Nat.id).
      clear Hk0. exists k0. split; [lia | split; [simpl; lia | ]].
      rewrite <- (findName_candidate baseName extension k0) by lia.
      rewrite !count_at_closed. f_equal. lia.
Qed.

(** The least number at which a test succeeds, when it succeeds
    somewhere. *)
Lemma least_success (P : nat -> bool) (n : nat) :
  P n = true ->
  exists m, m <= n /\ P m = true /\ forall j, j < m -> P j = false.
Proof.
  induction n as [n IH] using lt_wf_ind. intros Hn.
  destruct (List.existsb P (List.seq 0 n)) eqn:Hsome.
  - apply existsb_exists in Hsome. destruct Hsome as [j [Hj Hfree]].
    apply in_seq in Hj.
    destruct (IH j ltac:(lia) Hfree) as [m (Hm & Hhere & Hbefore)].
    exists m. split; [lia | split; assumption].
  - exists n. split; [lia | split; [exact Hn | ]]. intros j Hj.
    destruct (P j) eqn:Hj'; [ | reflexivity].
    assert (Hex : List.existsb P (List.seq 0 n) = true).
    { apply existsb_exists. exists j. split; [apply in_seq; lia | exact Hj']. }
    congruence.
Qed.

(** C8: the candidate names of [lastName] are [baseName-copy],
    [baseName-copy-2], [baseName-copy-3], ... at the positions below 2^53
    (where [count] stops growing).  [lastName] returns if and only if one of
    them does not exist; it then returns the first of them that does not
    exist and leaves the state as it was; and when all of them exist no
    amount of fuel makes it return: the loop has no bound of its own. *)
Theorem lastName_returns_iff_some_candidate_free
    {os : FsPromises} {np : NodePath} (st : fs)
    (baseName extension : string) :
  ((exists fuel r st', Dir_lastName fuel baseName extension st = Ret r st')
   <-> (exists k,
          (N.of_nat k < max_safe)%N
          /\ exists_now (candidate baseName extension k) st = false))
  /\ (forall fuel r st',
        Dir_lastName fuel baseName extension st = Ret r st' ->
        st' = st
        /\ exists k,
             (N.of_nat k < max_safe)%N
             /\ r = candidate baseName extension k
             /\ exists_now (candidate baseName extension k) st = false
             /\ forall j, j < k ->
                  exists_now (candidate baseName extension j) st = true)
  /\ ((forall k,
         (N.of_nat k < max_safe)%N ->
         exists_now (candidate baseName extension k) st = true) ->
      forall fuel, Dir_lastName fuel baseName extension st = Diverge).
Proof.
  assert (Hret : forall fuel r st',
             Dir_lastName fuel baseName extension st = Ret r st' ->
             st' = st
             /\ exists k,
                  (N.of_nat k < max_safe)%N
                  /\ r = candidate baseName extension k
                  /\ exists_now (candidate baseName extension k) st = false
                  /\ forall j, j < k ->
                       exists_now (candidate baseName extension j) st = true).
  { intros fuel r st' H.
    destruct (lastName_loop_returned _ _ _ _ _ H)
      as [-> [n (_ & -> & Hfree & Hbefore)]].
    split; [reflexivity | ]. fold (count_at n) in *.
    destruct (attempt_is_candidate baseName extension n)
      as [k (Hk & Hkn & Hname)].
    exists k. rewrite Hname in *.
    split; [exact Hk | split; [reflexivity | split; [exact Hfree | ]]].
    intros j Hj.
    rewrite <- (findName_candidate baseName extension j) by lia.
    apply (Hbefore (S j)). lia. }
  split; [split | split; [exact Hret | ]].
  - intros (fuel & r & st' & H).
    destruct (Hret _ _ _ H) as [_ [k (Hk & _ & Hfree & _)]].
    exists k. split; assumption.
  - intros [k [Hk Hfree]].
    (* the first attempt that finds its name free *)
    destruct (least_success
                (fun n => negb (exists_now
                                  (findName baseName extension (count_at n))
                                  st))
                (S k)) as [m (_ & Hhere & Hbefore)].
    { rewrite (findName_candidate baseName extension k Hk), Hfree.
      reflexivity. }
    apply negb_true_iff in Hhere.
    exists (S m), (findName baseName extension (count_at m)), st.
    apply (lastName_loop_finds baseName extension st (n := m));
      [lia | | exact Hhere].
    intros j Hj. apply negb_false_iff. exact (Hbefore j Hj).
  - intros Hall fuel. apply lastName_loop_runs_on. intros n.
    fold (count_at n).
    destruct (attempt_is_candidate baseName extension n)
      as [k (Hk & _ & ->)].
    apply Hall. exact Hk.
Qed.

(** C8 where every name is taken: on [full_fs] the loop outlasts any fuel,
    and on the reference filesystem it returns at once. *)
Example lastName_with_every_name_taken :
  (forall fuel,
     Dir_lastName (os := full_fs) fuel "a" ".txt" tt = Diverge)
  /\ Dir_lastName (os := ref_fs) 1 "a" ".txt" tree_src
     = Ret "a-copy.txt" tree_src.
Proof.
  split; [ | reflexivity].
  intros fuel. unfold Dir_lastName. apply lastName_loop_runs_on.
  intros n. reflexivity.
Qed.

(** ** The reference filesystem obeys the laws *)

Section Reference.

Lemma get_put_same c v es : get_entry c (put_entry c v es) = Some v.
Proof.
  induction es as [ | [k w] es IH]; simpl.
  - now rewrite String.eqb_refl.
  - destruct (String.eqb_spec k c) as [-> | Hk]; simpl.
    + now rewrite String.eqb_refl.
    + destruct (String.eqb_spec k c); [contradiction | exact IH].
Qed.

Lemma get_put_other c q v es :
  c <> q -> get_entry q (put_entry c v es) = get_entry q es.
Proof.
  intros Hcq. induction es as [ | [k w] es IH]; simpl.
  - destruct (String.eqb_spec c q); [contradiction | reflexivity].
  - destruct (String.eqb_spec k c) as [-> | Hk]; simpl.
    + destruct (String.eqb_spec c q); [contradiction | reflexivity].
    + destruct (String.eqb_spec k q); [reflexivity | exact IH].
Qed.

Lemma get_del_same c es : get_entry c (del_entry c es) = None.
Proof.
  induction es as [ | [k w] es IH]; simpl; [reflexivity | ].
  destruct (String.eqb_spec k c) as [-> | Hk]; simpl; [exact IH | ].
  destruct (String.eqb_spec k c); [contradiction | exact IH].
Qed.

(** After an update that only removes, the path resolves to nothing. *)
Lemma update_removed f :
  (forall m old n, f m old <> Resolved (Some n)) ->
  forall cs t t',
    update t cs f = Resolved t' -> exists e, walk t' cs = Rejected e.
Proof.
  intros Hf. induction cs as [ | c cs IH]; intros t t' H; simpl in H.
  - discriminate.
  - destruct t as [ | m es]; [discriminate | ].
    destruct (can_search m) eqn:Hm; [ | discriminate].
    destruct cs as [ | c2 cs].
    + destruct (f m (get_entry c es)) as [[n | ] | e] eqn:Hfm;
        try discriminate.
      * exfalso. exact (Hf _ _ _ Hfm).
      * injection H as <-. simpl. rewrite Hm, get_del_same.
        exists ENOENT. reflexivity.
    + destruct (get_entry c es) as [k | ]; [ | discriminate].
      destruct (update k (c2 :: cs) f) as [k' | e] eqn:Hk; [ | discriminate].
      injection H as <-. cbn [walk]. rewrite Hm, get_put_same.
      exact (IH _ _ Hk).
Qed.

(** After an update that only puts [n], the path resolves to [n]. *)
Lemma update_inserted f n :
  (forall m old x, f m old = Resolved x -> x = Some n) ->
  forall cs t t',
    update t cs f = Resolved t' -> walk t' cs = Resolved n.
Proof.
  intros Hf. induction cs as [ | c cs IH]; intros t t' H; simpl in H.
  - discriminate.
  - destruct t as [ | m es]; [discriminate | ].
    destruct (can_search m) eqn:Hm; [ | discriminate].
    destruct cs as [ | c2 cs].
    + destruct (f m (get_entry c es)) as [x | e] eqn:Hfm; [ | discriminate].
      rewrite (Hf _ _ _ Hfm) in H. injection H as <-.
      simpl. rewrite Hm, get_put_same. reflexivity.
    + destruct (get_entry c es) as [k | ]; [ | discriminate].
      destruct (update k (c2 :: cs) f) as [k' | e] eqn:Hk; [ | discriminate].
      injection H as <-. cbn [walk]. rewrite Hm, get_put_same.
      exact (IH _ _ Hk).
Qed.

Lemma make_directory_puts m old x :
  make_directory m old = Resolved x -> x = Some (Directory rwx []).
Proof.
  unfold make_directory. destruct old; [discriminate | ].
  destruct (can_write m); [ | discriminate]. now intros [= <-].
Qed.

Lemma remove_recursively_removes m old n :
  remove_recursively m old <> Resolved (Some n).
Proof.
  unfold remove_recursively. destruct old as [x | ]; [ | discriminate].
  destruct (can_write m && removable x); discriminate.
Qed.

Lemma ref_mkdir_unfold p t :
  ref_mkdir p t
  = match components p with
    | [] => (Rejected EEXIST, t)
    | _ :: _ => commit t (update t (components p) make_directory)
    end.
Proof. unfold ref_mkdir. destruct (components p); reflexivity. Qed.

#[export] Instance ref_fs_laws : FsLaws ref_fs.
Proof.
  constructor.
  - (* rm_removes *)
    intros p st st' H. cbn in H. unfold ref_rm, commit in H.
    destruct (update st (components p) remove_recursively) as [t1 | e]
      eqn:Hup; [ | discriminate].
    injection H as <-.
    destruct (update_removed _ remove_recursively_removes _ _ Hup)
      as [e He].
    unfold exists_now. cbn. unfold ref_access. rewrite He. reflexivity.
  - (* mkdir_creates *)
    intros p st st' H. cbn in H. rewrite ref_mkdir_unfold in H.
    destruct (components p) as [ | c cs] eqn:Hp; [discriminate | ].
    unfold commit in H.
    destruct (update st (c :: cs) make_directory) as [t1 | e] eqn:Hup;
      [ | discriminate].
    injection H as <-.
    pose proof (update_inserted _ make_directory_puts _ _ Hup) as Hw.
    unfold is_directory_now. cbn. unfold ref_stat, ref_readdir.
    rewrite Hp, Hw. split; reflexivity.
  - (* mkdir_refused *)
    intros p st e st' H. cbn in H. rewrite ref_mkdir_unfold in H.
    destruct (components p) as [ | c cs]; [now injection H | ].
    unfold commit in H.
    destruct (update st (c :: cs) make_directory); [discriminate | ].
    now injection H.
Qed.

End Reference.

(** ** [Dir.copy] and [Dir.move] *)

Section Copy.
Context {os : FsPromises} {np : NodePath}.

Lemma Dir_copy_step f ofPath toPath :
  Dir_copy (S f) ofPath toPath
  = (toPath' <- (if falsy toPath
                 then Dir_lastName (S f) ofPath ""
                 else ret (string_or_empty toPath)) ;;
     exists_ <- Dir_exists toPath' ;;
     (if negb exists_ then (Dir_create toPath' ;; ret tt) else ret tt) ;;
     copies <- Dir_list (S f) ofPath false ;;
     copy_loop (Dir_copy f) ofPath toPath' copies ;;
     ret true).
Proof. reflexivity. Qed.

(** A copy to a new, named destination from a source that lists as empty
    (or not at all) after the [mkdir]: the [mkdir] is all that happens. *)
Lemma Dir_copy_nothing_to_copy f ofPath toPath st :
  toPath <> "" ->
  exists_now toPath st = false ->
  Dir_list (S f) ofPath false (snd (mkdir toPath st))
  = Ret [] (snd (mkdir toPath st)) ->
  Dir_copy (S f) ofPath (Some toPath) st = Ret true (snd (mkdir toPath st)).
Proof.
  intros Hname Hnew Hlist. rewrite Dir_copy_step.
  assert (Hfalsy : falsy (Some toPath) = false)
    by (destruct toPath; [contradiction | reflexivity]).
  rewrite Hfalsy. unfold bind at 1. unfold ret at 1. simpl string_or_empty.
  rewrite (bind_run _ _ _ (Dir_exists_run toPath st)), Hnew.
  simpl negb. cbv iota.
  assert (Hmk : (Dir_create toPath ;; ret tt) st
                = Ret tt (snd (mkdir toPath st)))
    by (rewrite (bind_run _ _ _ (Dir_create_run toPath st)); reflexivity).
  rewrite (bind_run _ _ _ Hmk), (bind_run _ _ _ Hlist).
  reflexivity.
Qed.

(** [move] after a copy that returned: the removal is attempted on the
    state the copy left, and its outcome is dropped. *)
Lemma Dir_move_after_copy fuel ofPath toPath st v st1 :
  Dir_copy fuel ofPath toPath st = Ret v st1 ->
  Dir_move fuel ofPath toPath st
  = Ret tt (snd (rm_recursive ofPath st1)).
Proof.
  intros H. unfold Dir_move.
  rewrite (bind_run _ _ _ H), (bind_run _ _ _ (Dir_delete_run ofPath st1)).
  reflexivity.
Qed.

(** [move] after a copy that threw: nothing is removed. *)
Lemma Dir_move_after_throw fuel ofPath toPath st e st1 :
  Dir_copy fuel ofPath toPath st = Thrown e st1 ->
  Dir_move fuel ofPath toPath st = Thrown e st1.
Proof. intros H. unfold Dir_move, bind. rewrite H. reflexivity. Qed.

End Copy.

(** C6: whenever the top-level [Dir.copy] completes without throwing it
    returns [true]; nothing that happened to the entries reaches the
    returned value. *)
Theorem Dir_copy_returns_true
    {os : FsPromises} {np : NodePath} (fuel : nat) (ofPath : string)
    (toPath : option string) (st st' : fs) (v : bool) :
  Dir_copy fuel ofPath toPath st = Ret v st' -> v = true.
Proof.
  destruct fuel as [ | f]; [discriminate | ].
  rewrite Dir_copy_step. intros H.
  (* one bind per statement of the body; the last one is [return true] *)
  repeat (apply bind_Ret in H; destruct H as (? & ? & _ & H)).
  now injection H as <- _.
Qed.

(** C6 on the reference filesystem: [src/secret.txt] cannot be read, its
    copy fails (it returns [undefined] and [dst] does not get the file),
    and the copy of [src] returns [true] all the same. *)
Lemma Dir_copy_returns_true_witness :
  File_copy (os := ref_fs) "src/secret.txt" "dst/secret.txt"
            tree_secret_copied
  = Ret VUndefined tree_secret_copied
  /\ exists v,
       Dir_copy (os := ref_fs) 2 "src" (Some "dst") tree_secret
       = Ret v tree_secret_copied
       /\ v = true.
Proof.
  split; [reflexivity | ].
  eexists. split; [reflexivity | ].
  apply (@Dir_copy_returns_true ref_fs ref_path 2 "src" (Some "dst")
           tree_secret tree_secret_copied true).
  reflexivity.
Defined.




(** C10 as the code has it: [Dir.copy] lists the source after its attempt
    to make the destination.  For a non-empty destination that does not
    exist and a source whose listing, in the state that attempt leaves,
    fails or is empty, [Dir.copy] makes one [mkdir] of the destination,
    drops its outcome, changes nothing else and returns [true].  The
    destination is an empty directory afterwards when that [mkdir]
    succeeded; when it was refused nothing has changed and the destination
    still does not exist. *)
Theorem Dir_copy_without_source
    {os : FsPromises} {np : NodePath} {laws : FsLaws os}
    (fuel : nat) (ofPath toPath : string) (st : fs) :
  toPath <> "" ->
  exists_now toPath st = false ->
  ((exists e, readdir ofPath (snd (mkdir toPath st)) = Rejected e)
   \/ readdir ofPath (snd (mkdir toPath st)) = Resolved []) ->
  Dir_copy (S fuel) ofPath (Some toPath) st
  = Ret true (snd (mkdir toPath st))
  /\ (fst (mkdir toPath st) = Resolved tt ->
      is_directory_now toPath (snd (mkdir toPath st)) = true
      /\ readdir toPath (snd (mkdir toPath st)) = Resolved [])
  /\ (forall e', fst (mkdir toPath st) = Rejected e' ->
                 snd (mkdir toPath st) = st
                 /\ exists_now toPath (snd (mkdir toPath st)) = false).
Proof.
  intros Hname Hnew Hsrc. split; [ | split].
  - apply Dir_copy_nothing_to_copy; [exact Hname | exact Hnew | ].
    destruct Hsrc as [[e He] | Hempty].
    + exact (Dir_list_rejected fuel ofPath false _ He).
    + exact (Dir_list_no_items fuel ofPath false _ Hempty).
  - intros Hmade. apply (mkdir_creates toPath st).
    destruct (mkdir toPath st) as [o st1]. simpl in *. now subst o.
  - intros e' Hrefused.
    assert (Hsame : snd (mkdir toPath st) = st).
    { apply (mkdir_refused toPath st (e := e')).
      destruct (mkdir toPath st) as [o st1]. simpl in *. now subst o. }
    rewrite Hsame. split; [reflexivity | exact Hnew].
Qed.

(** C10 on the reference filesystem: [nosrc] does not exist once [dst] is
    made, [dst] is made as an empty directory, and the copy returns
    [true]. *)
Lemma Dir_copy_without_source_witness :
  exists_now (os := ref_fs) "dst" tree_src = false
  /\ mkdir (FsPromises := ref_fs) "dst" tree_src
     = (Resolved tt, tree_src_with_dst)
  /\ readdir (FsPromises := ref_fs) "nosrc" tree_src_with_dst
     = Rejected ENOENT
  /\ Dir_copy (os := ref_fs) 1 "nosrc" (Some "dst") tree_src
     = Ret true tree_src_with_dst
  /\ readdir (FsPromises := ref_fs) "dst" tree_src_with_dst = Resolved [].
Proof.
  pose proof (@Dir_copy_without_source ref_fs ref_path ref_fs_laws
                0 "nosrc" "dst" tree_src
                ltac:(discriminate) eq_refl
                (or_introl (ex_intro _ ENOENT eq_refl)))
    as (Hcopy & Hmade & _).
  split; [reflexivity | split; [reflexivity | split; [reflexivity | split]]].
  - exact Hcopy.
  - exact (proj2 (Hmade eq_refl)).
Defined.

(** C10 as stated fails: neither [nosrc] nor [x/y] exists, and [x] does not
    exist either, so the [mkdir] of [x/y] is refused; the copy returns
    [true] and [x/y] still does not exist. *)
Lemma Dir_copy_can_leave_no_destination :
  Dir_exists (os := ref_fs) "nosrc" tree_src = Ret false tree_src
  /\ Dir_exists (os := ref_fs) "x/y" tree_src = Ret false tree_src
  /\ Dir_create (os := ref_fs) "x/y" tree_src = Ret false tree_src
  /\ Dir_copy (os := ref_fs) 1 "nosrc" (Some "x/y") tree_src
     = Ret true tree_src.
Proof. repeat split; reflexivity. Qed.

(** ** The destination of an entry *)

(** C1, at the inputs where the claim fails: the source path is compiled
    as a regular expression.  For the directory [a+b] the pattern matches
    [ab], [aab], ... and not the text [a+b], so the entry [a+b/f.txt] keeps
    its path, the file is copied onto itself and [dst] stays empty; for
    [a.b] the dot matches any character, so the entry [a.b/axb] goes to
    [dst/dst]; and for [a(b] the constructor throws, and so does [copy],
    after it has made [dst]. *)
Theorem Dir_copy_source_is_a_pattern :
  after_path "a+b" "dst" "a+b/f.txt" = Parsed "a+b/f.txt"
  /\ Dir_list (os := ref_fs) 1 "a+b" false tree_plus
     = Ret [file_entry (np := ref_path) "a+b" "f.txt"] tree_plus
  /\ Dir_copy (os := ref_fs) 2 "a+b" (Some "dst") tree_plus
     = Ret true tree_plus_copied
  /\ after_path "a.b" "dst" "a.b/axb" = Parsed "dst/dst"
  /\ after_path "a(b" "dst" "a(b/f.txt" = BadSyntax "Unterminated group"
  /\ Dir_copy (os := ref_fs) 2 "a(b" (Some "dst") tree_paren
     = Thrown (SyntaxError "Unterminated group") tree_paren_copied.
Proof. repeat split; reflexivity. Qed.

(** *** Where the pattern is plain text the replacement is literal *)

Section PlainPatterns.

Lemma plain_character c :
  negb (is_syntax_character c) = true ->
  is_char c "|" = false /\ is_char c ")" = false /\ is_char c "(" = false
  /\ is_quantifier c = false /\ is_unmodelled c = false
  /\ is_char c "." = false.
Proof.
  unfold is_syntax_character, is_quantifier, is_unmodelled. intros H.
  destruct (is_char c "|"); [discriminate | ].
  destruct (is_char c ")"); [discriminate | ].
  destruct (is_char c "("); [discriminate | ].
  destruct (is_char c "*"); [discriminate | ].
  destruct (is_char c "+"); [discriminate | ].
  destruct (is_char c "?"); [discriminate | ].
  destruct (is_char c "["); [discriminate | ].
  destruct (is_char c "]"); [discriminate | ].
  destruct (is_char c "{"); [discriminate | ].
  destruct (is_char c "}"); [discriminate | ].
  destruct (is_char c "\"); [discriminate | ].
  destruct (is_char c "^"); [discriminate | ].
  destruct (is_char c "$"); [discriminate | ].
  destruct (is_char c "."); [discriminate | ].
  repeat split; reflexivity.
Qed.

Lemma parse_alternative_plain :
  forall s fuel acc,
    forallb (fun c => negb (is_syntax_character c)) s = true ->
    List.length s < fuel ->
    parse_alternative fuel s acc
    = Parsed (fold_left (fun a c => Seq a (Char c)) s acc, []).
Proof.
  induction s as [ | c s IH]; intros [ | f] acc Hplain Hfuel;
    simpl in Hfuel; try lia.
  - reflexivity.
  - simpl in Hplain. apply andb_prop in Hplain. destruct Hplain as [Hc Hs].
    destruct (plain_character c Hc) as (H1 & H2 & H3 & H4 & H5 & H6).
    cbn [parse_alternative]. rewrite H1, H2, H3, H4, H5, H6. cbn [orb].
    destruct s as [ | q s].
    + simpl in Hfuel. destruct f; [lia | reflexivity].
    + pose proof Hs as Hq. simpl in Hq. apply andb_prop in Hq.
      destruct (plain_character q (proj1 Hq)) as (_ & _ & _ & Hquant & _).
      rewrite Hquant. apply IH; [exact Hs | simpl in *; lia].
Qed.

Lemma RegExp_new_plain pattern :
  plain pattern = true ->
  RegExp_new pattern = Parsed (chain (list_ascii_of_string pattern)).
Proof.
  intros Hplain. unfold RegExp_new, plain in *.
  set (s := list_ascii_of_string pattern) in *.
  replace (2 * List.length s + 2) with (S (2 * List.length s + 1)) by lia.
  cbn [parse_disjunction].
  rewrite (parse_alternative_plain s Empty Hplain) by lia.
  reflexivity.
Qed.

Lemma strip_prefix_snoc p c :
  forall s,
    strip_prefix (p ++ [c]) s
    = match strip_prefix p s with
      | Some (x :: r) => if Ascii.eqb x c then Some r else None
      | _ => None
      end.
Proof.
  induction p as [ | d p IH]; intros s; simpl.
  - destruct s as [ | x s]; [reflexivity | ].
    destruct (Ascii.eqb x c); reflexivity.
  - destruct s as [ | x s]; [reflexivity | ].
    destruct (Ascii.eqb x d); [apply IH | reflexivity].
Qed.

Lemma rmatch_chain p :
  forall s k,
    rmatch (chain p) s k
    = match strip_prefix p s with
      | Some r => k r
      | None => None
      end.
Proof.
  unfold chain. induction p as [ | c p IH] using rev_ind; intros s k.
  - reflexivity.
  - rewrite fold_left_app. cbn [fold_left rmatch].
    rewrite IH, strip_prefix_snoc.
    destruct (strip_prefix p s) as [[ | x r] | ]; try reflexivity.
    destruct (Ascii.eqb x c); reflexivity.
Qed.

Lemma regexp_exec_chain p : forall s, regexp_exec (chain p) s = find_literal p s.
Proof.
  induction s as [ | c s IH].
  - simpl. rewrite rmatch_chain. destruct (strip_prefix p []); reflexivity.
  - cbn [regexp_exec find_literal]. rewrite rmatch_chain, IH.
    destruct (strip_prefix p (c :: s)); reflexivity.
Qed.

Lemma replace_loop_chain p replacement :
  forall fuel s,
    replace_loop fuel (chain p) replacement s
    = replace_literal fuel p replacement s.
Proof.
  induction fuel as [ | f IH]; intros s; [reflexivity | ].
  cbn [replace_loop replace_literal]. rewrite regexp_exec_chain.
  destruct (find_literal p s) as [[skipped rest] | ]; [ | reflexivity].
  rewrite IH. destruct rest as [ | c rest]; [reflexivity | ].
  rewrite IH. reflexivity.
Qed.

(** For a plain pattern and a replacement without [$] the code's
    replacement is the literal one. *)
Lemma String_replace_plain subject pattern replacement :
  plain pattern = true ->
  has_dollar (list_ascii_of_string replacement) = false ->
  String_replace subject pattern replacement
  = Parsed (replaceAll_literal subject pattern replacement).
Proof.
  intros Hplain Hdollar. unfold String_replace, replaceAll_literal.
  rewrite (RegExp_new_plain pattern Hplain). cbv zeta. rewrite Hdollar.
  rewrite replace_loop_chain. reflexivity.
Qed.

Lemma list_ascii_of_append a b :
  list_ascii_of_string (a ++ b)
  = (list_ascii_of_string a ++ list_ascii_of_string b)%list.
Proof. induction a as [ | c a IH]; simpl; [reflexivity | now rewrite IH]. Qed.

Lemma string_of_list_app a b :
  string_of_list_ascii (a ++ b)%list
  = string_of_list_ascii a ++ string_of_list_ascii b.
Proof. induction a as [ | c a IH]; simpl; [reflexivity | now rewrite IH]. Qed.

Lemma strip_prefix_app p rest : strip_prefix p (p ++ rest)%list = Some rest.
Proof.
  induction p as [ | c p IH]; simpl; [reflexivity | ].
  now rewrite Ascii.eqb_refl.
Qed.

(** The prefix of an entry's path: for a plain, non-empty source path that
    does not occur again in the rest of the entry's path, and a destination
    without [$], the destination of the entry is the destination path
    followed by that rest. *)
Lemma after_path_replaces_prefix ofPath toPath rest :
  ofPath <> "" ->
  plain ofPath = true ->
  has_dollar (list_ascii_of_string toPath) = false ->
  occurs ofPath rest = false ->
  after_path ofPath toPath (ofPath ++ rest) = Parsed (toPath ++ rest).
Proof.
  intros Hne Hplain Hdollar Hocc. unfold after_path.
  rewrite (String_replace_plain _ _ _ Hplain Hdollar).
  unfold replaceAll_literal, occurs in *.
  rewrite list_ascii_of_append.
  set (p := list_ascii_of_string ofPath) in *.
  set (r := list_ascii_of_string rest) in *.
  assert (Hp : p <> []).
  { subst p. destruct ofPath; [contradiction | discriminate]. }
  cbn [replace_literal].
  assert (Hfind : find_literal p (p ++ r)%list = Some ([], r)).
  { destruct (p ++ r)%list eqn:Hpr; cbn [find_literal]; rewrite <- Hpr;
      rewrite strip_prefix_app; reflexivity. }
  rewrite Hfind. cbn [List.length Nat.add app].
  replace (Nat.eqb (List.length r) (List.length (p ++ r)%list)) with false.
  2:{ symmetry. apply Nat.eqb_neq. rewrite length_app.
      destruct p; [contradiction | simpl; lia]. }
  assert (Hrest : replace_literal (List.length (p ++ r)%list) p
                    (list_ascii_of_string toPath) r = r).
  { destruct (List.length (p ++ r)%list); [reflexivity | ].
    cbn [replace_literal].
    destruct (find_literal p r); [discriminate | reflexivity]. }
  rewrite Hrest, string_of_list_app. subst r.
  rewrite !string_of_list_ascii_of_string. reflexivity.
Qed.

End PlainPatterns.

(** The usual case: [src] copied to [dst]. *)
Example after_path_src_dst :
  after_path "src" "dst" ("src" ++ "/sub/g.txt") = Parsed "dst/sub/g.txt".
Proof.
  apply (@after_path_replaces_prefix "src" "dst" "/sub/g.txt");
    [discriminate | reflexivity | reflexivity | reflexivity].
Qed.

(** * Further properties of the two classes *)

(** ** The shape of a listing *)

Section ListingShape.
Context {os : FsPromises} {np : NodePath}.

Lemma lists_item_fields dirPath st item e :
  lists_item dirPath st item e ->
  path e = dirPath ++ "/" ++ item
  /\ file e = negb (is_directory_now (dirPath ++ "/" ++ item) st)
  /\ name e = parse_name (path e)
  /\ (if file e
      then extension e = Some (extname (path e))
           /\ nameWithExtension e = Some (basename (path e))
           /\ sub e = None
      else extension e = None /\ nameWithExtension e = None).
Proof.
  unfold lists_item. intros (Hp & Hf & Hn & Hx & Hnx & Hs).
  rewrite Hp. repeat split; try assumption.
  destruct (file e); repeat split; auto.
Qed.

(** What one round of the loop of [list] leaves in [sub]. *)
Definition sub_of (self : string -> bool -> M fs (list DirEntry))
    (listSubPath : bool) (st : fs) (e : DirEntry) : Prop :=
  if listSubPath && negb (file e)
  then exists l, sub e = Some l /\ self (path e) true st = Ret l st
  else sub e = None.

Lemma list_item_sub self dirPath listSubPath item st e st' :
  quiet self ->
  list_item self dirPath listSubPath item st = Ret e st' ->
  sub_of self listSubPath st e.
Proof.
  intros Hself. unfold list_item, sub_of.
  rewrite (bind_run _ _ _ (Dir_check_run _ st)).
  destruct (is_directory_now (dirPath ++ "/" ++ item) st) eqn:Hdir;
    destruct listSubPath; simpl andb; cbv iota.
  - intros H. apply bind_Ret in H. destruct H as (s & st1 & Hs & H).
    apply bind_Ret in Hs. destruct Hs as (l & st2 & Hl & Hs).
    pose proof (Hself (dirPath ++ "/" ++ item) true st) as Hq.
    rewrite Hl in Hq. destruct Hq as [-> _].
    injection Hs as <- <-. injection H as <- _. simpl.
    exists l. split; [reflexivity | exact Hl].
  - intros H. injection H as <- _. reflexivity.
  - intros H. injection H as <- _. reflexivity.
  - intros H. injection H as <- _. reflexivity.
Qed.

Lemma list_loop_sub self dirPath listSubPath st :
  quiet self ->
  forall items contents es st',
    list_loop self dirPath listSubPath items contents st = Ret es st' ->
    Forall (sub_of self listSubPath st) contents ->
    Forall (sub_of self listSubPath st) es.
Proof.
  intros Hself. induction items as [ | item rest IH];
    intros contents es st' H Hacc; simpl in H.
  - injection H as <- _. exact Hacc.
  - apply bind_Ret in H. destruct H as (e & st1 & He & H).
    pose proof (list_item_quiet dirPath listSubPath item st Hself) as Hq.
    rewrite He in Hq. destruct Hq as [-> _].
    apply (IH _ _ _ H). apply Forall_app. split; [exact Hacc | ].
    constructor; [ | constructor].
    eapply list_item_sub; [exact Hself | exact He].
Qed.

Lemma Dir_list_is_quiet fuel : quiet (Dir_list fuel).
Proof.
  intros p b s. pose proof (Dir_list_quiet fuel p b s) as H.
  destruct (Dir_list fuel p b s); simpl in *; try assumption.
  split; [apply H | exact I].
Qed.

End ListingShape.

(** X1: a listing that returns has left the filesystem as it was and holds
    one entry per name that [readdir] gave, in the same order: the path is
    the directory path, a slash and the name; [file] is true exactly when
    the path is not a directory; a file entry carries [extension] and
    [nameWithExtension] and no [sub], a directory entry carries neither of
    the two. *)
Theorem Dir_list_one_entry_per_name
    {os : FsPromises} {np : NodePath} (fuel : nat) (dirPath : string)
    (listSubPath : bool) (st st' : fs) (items : list string)
    (entries : list DirEntry) :
  readdir dirPath st = Resolved items ->
  Dir_list fuel dirPath listSubPath st = Ret entries st' ->
  st' = st
  /\ List.map path entries
     = List.map (fun item => dirPath ++ "/" ++ item) items
  /\ List.map file entries
     = List.map (fun item =>
                   negb (is_directory_now (dirPath ++ "/" ++ item) st)) items
  /\ Forall (fun e =>
               name e = parse_name (path e)
               /\ (if file e
                   then extension e = Some (extname (path e))
                        /\ nameWithExtension e = Some (basename (path e))
                        /\ sub e = None
                   else extension e = None /\ nameWithExtension e = None))
            entries.
Proof.
  intros Hdir Hrun.
  pose proof (Dir_list_quiet fuel dirPath listSubPath st) as Hq.
  rewrite Hrun in Hq. destruct Hq as [-> Hq]. split; [reflexivity | ].
  unfold listing_of in Hq. rewrite Hdir in Hq. clear Hdir Hrun.
  induction Hq as [ | item e items entries He _ IH].
  - repeat split; constructor.
  - destruct IH as (IHp & IHf & IHx).
    destruct (lists_item_fields He) as (Hp & Hf & Hn & Hx).
    simpl. rewrite IHp, IHf, Hp, Hf.
    repeat split; try reflexivity.
    constructor; [ | exact IHx]. split; [exact Hn | exact Hx].
Qed.

(** X1 on the reference filesystem: [src] holds a file and a directory. *)
Lemma Dir_list_one_entry_per_name_witness :
  readdir (FsPromises := ref_fs) "src" tree_src = Resolved ["f.txt"; "sub"]
  /\ Dir_list (os := ref_fs) 1 "src" false tree_src
     = Ret [ {| path := "src/f.txt"; file := true; name := "f";
                extension := Some ".txt"; nameWithExtension := Some "f.txt";
                sub := None |};
             {| path := "src/sub"; file := false; name := "sub";
                extension := None; nameWithExtension := None;
                sub := None |} ] tree_src
  /\ forall fuel listSubPath entries st',
       Dir_list (os := ref_fs) (np := ref_path) fuel "src" listSubPath
                tree_src = Ret entries st' ->
       List.map path entries = ["src/f.txt"; "src/sub"]
       /\ List.map file entries = [true; false].
Proof.
  split; [reflexivity | split; [reflexivity | ]].
  intros fuel listSubPath entries st' H.
  destruct (@Dir_list_one_entry_per_name ref_fs ref_path fuel "src"
              listSubPath tree_src st' ["f.txt"; "sub"] entries eq_refl H)
    as (_ & Hp & Hf & _).
  split; [exact Hp | exact Hf].
Defined.

(** X2: [sub] is set on recursion only.  A listing without descent sets
    it on no entry; a listing with descent sets it on the directories, to
    what the listing of that directory returns (with one unit of fuel
    less), and on no file. *)
Theorem Dir_list_sub_is_the_listing_below
    {os : FsPromises} {np : NodePath} (fuel : nat) (dirPath : string)
    (listSubPath : bool) (st st' : fs) (entries : list DirEntry) :
  Dir_list (S fuel) dirPath listSubPath st = Ret entries st' ->
  Forall (fun e =>
            if listSubPath && negb (file e)
            then exists l,
                   sub e = Some l
                   /\ Dir_list fuel (path e) true st = Ret l st
            else sub e = None)
         entries.
Proof.
  cbn [Dir_list]. unfold try_catch. intros H.
  destruct (readdir dirPath st) as [items | err] eqn:Hdir.
  - unfold bind at 1, await_read in H. rewrite Hdir in H.
    destruct (list_loop (Dir_list fuel) dirPath listSubPath items [] st)
      as [es st1 | | | ] eqn:Hloop; try discriminate.
    + injection H as <- <-.
      eapply list_loop_sub;
        [exact (Dir_list_is_quiet fuel) | exact Hloop | constructor].
    + exfalso.
      pose proof (list_loop_quiet dirPath listSubPath st
                    (Dir_list_is_quiet fuel) items []) as Hq.
      rewrite Hloop in Hq. exact Hq.
  - unfold bind, await_read in H. rewrite Hdir in H.
    injection H as <- _. constructor.
Qed.

(** X2 on the reference filesystem: the recursive listing of [src]. *)
Lemma Dir_list_sub_witness :
  Dir_list (os := ref_fs) 2 "src" true tree_src
  = Ret [ {| path := "src/f.txt"; file := true; name := "f";
             extension := Some ".txt"; nameWithExtension := Some "f.txt";
             sub := None |};
          {| path := "src/sub"; file := false; name := "sub";
             extension := None; nameWithExtension := None;
             sub := Some [ {| path := "src/sub/g.txt"; file := true;
                              name := "g"; extension := Some ".txt";
                              nameWithExtension := Some "g.txt";
                              sub := None |} ] |} ] tree_src
  /\ forall entries st',
       Dir_list (os := ref_fs) (np := ref_path) 2 "src" true tree_src
       = Ret entries st' ->
       Forall (fun e =>
                 if true && negb (file e)
                 then exists l,
                        sub e = Some l
                        /\ Dir_list (os := ref_fs) (np := ref_path) 1
                                    (path e) true tree_src
                           = Ret l tree_src
                 else sub e = None)
              entries.
Proof.
  split; [reflexivity | ].
  intros entries st' H.
  exact (@Dir_list_sub_is_the_listing_below ref_fs ref_path 1 "src" true
           tree_src st' entries H).
Defined.

(** ** The single-file methods *)

Section FileFacts.
Context {os : FsPromises} {np : NodePath}.

Lemma File_update_run p content st :
  File_update p content st
  = Ret (match fst (writeFile p content st) with
         | Resolved _ => {| updated := true; update_error := None |}
         | Rejected e => {| updated := false; update_error := Some e |}
         end) (snd (writeFile p content st)).
Proof.
  unfold File_update, try_catch, bind, await_write, ret.
  destruct (writeFile p content st) as [[ [] | e] st1]; reflexivity.
Qed.

Lemma File_delete_run p st :
  File_delete p st
  = Ret (match fst (unlink p st) with
         | Resolved _ => {| deleted := true; delete_error := None |}
         | Rejected e => {| deleted := false; delete_error := Some e |}
         end) (snd (unlink p st)).
Proof.
  unfold File_delete, try_catch, bind, await_write, ret.
  destruct (unlink p st) as [[ [] | e] st1]; reflexivity.
Qed.

End FileFacts.

(** X3: [File.update] is [File.create] under another name: on every path,
    content and state the two leave the same filesystem and report the same
    outcome, flag and error.  There is no check that the file exists, so
    updating a missing file creates it whenever creating it would
    succeed. *)
Theorem File_update_is_File_create
    {os : FsPromises} {np : NodePath} (filePath content : string) (st : fs) :
  exists r st',
    File_create filePath content st = Ret r st'
    /\ File_update filePath content st
       = Ret {| updated := create r; update_error := create_error r |} st'
    /\ (create r = true <-> fst (writeFile filePath content st) = Resolved tt)
    /\ (create r = true <-> create_error r = None).
Proof.
  rewrite File_create_run, File_update_run.
  destruct (writeFile filePath content st) as [[ [] | e] st1]; simpl;
    eexists; eexists; (split; [reflexivity | split; [reflexivity | ]]);
    simpl; split; split; intros H; try reflexivity; discriminate.
Qed.

(** X3 on the reference filesystem: the update of a file that does not
    exist creates it. *)
Example File_update_creates :
  File_update (os := ref_fs) "new.txt" "text" (dir [])
  = Ret {| updated := true; update_error := None |}
        (dir [("new.txt", rw_file "text")])
  /\ File_create (os := ref_fs) "new.txt" "text" (dir [])
     = Ret {| create := true; create_error := None |}
           (dir [("new.txt", rw_file "text")]).
Proof. split; reflexivity. Qed.

(** X4: no method of [File], and none of [exists], [create], [rename],
    [delete] and [check] of [Dir], ever rejects or fails to settle: each
    resolves with a value on every input and in every state, whatever the
    operating system answers; and [exists], [check] and [read] leave the
    filesystem as it was. *)
Theorem wrappers_always_resolve
    {os : FsPromises} {np : NodePath} (p q content : string) (st : fs) :
  (exists v, Dir_exists p st = Ret v st)
  /\ (exists v, Dir_check p st = Ret v st)
  /\ (exists v, File_read p st = Ret v st)
  /\ (exists v st', Dir_create p st = Ret v st')
  /\ (exists v st', Dir_rename p q st = Ret v st')
  /\ (exists v st', Dir_delete p st = Ret v st')
  /\ (exists v st', File_create p content st = Ret v st')
  /\ (exists v st', File_update p content st = Ret v st')
  /\ (exists v st', File_delete p st = Ret v st')
  /\ (exists v st', File_rename p q st = Ret v st')
  /\ (exists v st', File_copy p q st = Ret v st').
Proof.
  rewrite Dir_exists_run, Dir_check_run, File_read_run, Dir_create_run,
    Dir_rename_run, Dir_delete_run, File_create_run, File_update_run,
    File_delete_run, File_rename_run, File_copy_run.
  repeat split; try (eexists; reflexivity); try (eexists; eexists; reflexivity).
  - destruct (is_directory_now p st); eexists; eexists; reflexivity.
  - destruct (readFile p st); eexists; eexists; reflexivity.
Qed.

(** ** What [Dir.copy] can throw *)

Section CopyThrows.
Context {os : FsPromises} {np : NodePath}.

Lemma bind_Thrown {A B} (m : M fs A) (k : A -> M fs B) st e st' :
  bind m k st = Thrown e st' ->
  m st = Thrown e st'
  \/ exists a st1, m st = Ret a st1 /\ k a st1 = Thrown e st'.
Proof.
  unfold bind. destruct (m st) as [a st1 | e1 st1 | | ]; try discriminate.
  - intros H. right. exists a, st1. split; [reflexivity | exact H].
  - intros H. left. injection H as -> ->. reflexivity.
Qed.

Lemma lastName_loop_quiet baseName extension st :
  forall fuel count,
    quiet_result (fun _ : string => True) st
                 (lastName_loop fuel baseName extension count st).
Proof.
  induction fuel as [ | f IH]; intros count; [exact I | ].
  rewrite lastName_loop_step.
  destruct (exists_now (findName baseName extension count) st);
    [apply IH | split; [reflexivity | exact I]].
Qed.

(** The errors that escape the loop of [copy] are those of the [RegExp]
    constructor and those of the recursive calls. *)
Lemma copy_loop_throws self ofPath toPath :
  (forall b a s e s', self b a s = Thrown e s' -> exists m, e = SyntaxError m) ->
  forall copies st e st',
    copy_loop self ofPath toPath copies st = Thrown e st' ->
    exists m, e = SyntaxError m.
Proof.
  intros Hself. induction copies as [ | item rest IH]; intros st e st' H;
    simpl in H; [discriminate | ].
  apply bind_Thrown in H. destruct H as [H | (after & st1 & Hafter & H)].
  - unfold lift_parsed in H.
    destruct (after_path ofPath toPath (path item)); try discriminate.
    injection H as <- _. eexists. reflexivity.
  - apply bind_Thrown in H. destruct H as [H | (u & st2 & _ & H)];
      [ | exact (IH _ _ _ H)].
    destruct (negb (file item)).
    + apply bind_Thrown in H. destruct H as [H | (v & st2 & _ & H)];
        [exact (Hself _ _ _ _ _ H) | discriminate].
    + rewrite (bind_run _ _ _ (File_copy_run _ _ _)) in H
        || (unfold bind in H; rewrite File_copy_run in H).
      destruct (readFile (path item) st1); discriminate.
Qed.

Lemma Dir_copy_throws fuel :
  forall ofPath toPath st e st',
    Dir_copy fuel ofPath toPath st = Thrown e st' ->
    exists m, e = SyntaxError m.
Proof.
  induction fuel as [ | f IH]; intros ofPath toPath st e st' H;
    [discriminate | ].
  rewrite Dir_copy_step in H.
  apply bind_Thrown in H. destruct H as [H | (dest & st1 & _ & H)].
  { destruct (falsy toPath); [ | discriminate].
    pose proof (lastName_loop_quiet ofPath "" st (S f) 0%N) as Hq.
    unfold Dir_lastName in H. rewrite H in Hq. contradiction. }
  rewrite (bind_run _ _ _ (Dir_exists_run dest st1)) in H.
  apply bind_Thrown in H. destruct H as [H | (u & st2 & _ & H)].
  { destruct (negb (exists_now dest st1)); [ | discriminate].
    rewrite (bind_run _ _ _ (Dir_create_run dest st1)) in H. discriminate. }
  apply bind_Thrown in H. destruct H as [H | (copies & st3 & _ & H)].
  { pose proof (Dir_list_quiet (S f) ofPath false st2) as Hq.
    rewrite H in Hq. contradiction. }
  apply bind_Thrown in H. destruct H as [H | (u' & st4 & _ & H)];
    [ | discriminate].
  exact (copy_loop_throws _ ofPath dest (IH) _ _ H).
Qed.

Lemma findName_not_empty baseName extension count :
  findName baseName extension count <> "".
Proof.
  unfold findName. destruct (1 <? count)%N; destruct baseName; discriminate.
Qed.

End CopyThrows.

(** X5: the only error that escapes [Dir.copy] is the syntax error of the
    [RegExp] constructor; no rejection of the operating system does.  The
    same holds of [Dir.move], and when [move] throws it is its copy that
    threw: the filesystem is as the copy left it and nothing was removed. *)
Theorem Dir_copy_throws_only_SyntaxError
    {os : FsPromises} {np : NodePath} (fuel : nat) (ofPath : string)
    (toPath : option string) (st st' : fs) (e : js_error) :
  (Dir_copy fuel ofPath toPath st = Thrown e st' ->
   exists m, e = SyntaxError m)
  /\ (Dir_move fuel ofPath toPath st = Thrown e st' ->
      (exists m, e = SyntaxError m)
      /\ Dir_copy fuel ofPath toPath st = Thrown e st').
Proof.
  split; [apply Dir_copy_throws | ].
  intros H. unfold Dir_move in H.
  apply bind_Thrown in H. destruct H as [H | (v & st1 & _ & H)].
  - split; [exact (Dir_copy_throws _ _ _ _ H) | exact H].
  - rewrite (bind_run _ _ _ (Dir_delete_run ofPath st1)) in H. discriminate.
Qed.

(** X5 on the reference filesystem: the move of [a(b] throws after [dst]
    was made, and [a(b] is still there. *)
Example Dir_move_throws_and_keeps_the_source :
  Dir_move (os := ref_fs) 2 "a(b" (Some "dst") tree_paren
  = Thrown (SyntaxError "Unterminated group") tree_paren_copied
  /\ Dir_exists (os := ref_fs) "a(b" tree_paren_copied
     = Ret true tree_paren_copied.
Proof. split; reflexivity. Qed.

(** X6: a source path that is not a well-formed pattern makes [copy] throw
    as soon as the source has an entry to copy, and by then the destination
    has been made: the state is the one after the [mkdir] (attempted only
    when the destination did not exist). *)
Theorem Dir_copy_bad_pattern_throws
    {os : FsPromises} {np : NodePath} (fuel : nat) (ofPath toPath : string)
    (st : fs) (message : string) (item : string) (items : list string) :
  toPath <> "" ->
  RegExp_new ofPath = BadSyntax message ->
  readdir ofPath
          (if exists_now toPath st then st else snd (mkdir toPath st))
  = Resolved (item :: items) ->
  Dir_copy (S fuel) ofPath (Some toPath) st
  = Thrown (SyntaxError message)
           (if exists_now toPath st then st else snd (mkdir toPath st)).
Proof.
  intros Hname Hbad Hitems.
  set (st1 := if exists_now toPath st then st else snd (mkdir toPath st)) in *.
  rewrite Dir_copy_step.
  assert (Hfalsy : falsy (Some toPath) = false)
    by (destruct toPath; [contradiction | reflexivity]).
  rewrite Hfalsy. unfold bind at 1. unfold ret at 1. simpl string_or_empty.
  rewrite (bind_run _ _ _ (Dir_exists_run toPath st)).
  assert (Hpre : (if negb (exists_now toPath st)
                  then (Dir_create toPath ;; ret tt)
                  else ret tt) st = Ret tt st1).
  { subst st1. destruct (exists_now toPath st); simpl; [reflexivity | ].
    rewrite (bind_run _ _ _ (Dir_create_run toPath st)). reflexivity. }
  rewrite (bind_run _ _ _ Hpre).
  destruct (Dir_list_flat_returns fuel ofPath st1) as [entries Hlist].
  rewrite (bind_run _ _ _ Hlist).
  pose proof (Dir_list_quiet (S fuel) ofPath false st1) as Hq.
  rewrite Hlist in Hq. destruct Hq as [_ Hq].
  unfold listing_of in Hq. rewrite Hitems in Hq.
  inversion Hq as [ | ? e ? es He Hes]; subst.
  cbn [copy_loop]. unfold after_path, String_replace. rewrite Hbad.
  reflexivity.
Qed.

(** X6 on the reference filesystem: [a(b] holds a file. *)
Lemma Dir_copy_bad_pattern_witness :
  RegExp_new "a(b" = BadSyntax "Unterminated group"
  /\ exists_now (os := ref_fs) "dst" tree_paren = false
  /\ readdir (FsPromises := ref_fs) "a(b" tree_paren_copied
     = Resolved ["f.txt"]
  /\ Dir_copy (os := ref_fs) 1 "a(b" (Some "dst") tree_paren
     = Thrown (SyntaxError "Unterminated group") tree_paren_copied.
Proof.
  split; [reflexivity | split; [reflexivity | split; [reflexivity | ]]].
  exact (@Dir_copy_bad_pattern_throws ref_fs ref_path 0 "a(b" "dst"
           tree_paren "Unterminated group" "f.txt" []
           ltac:(discriminate) eq_refl eq_refl).
Defined.

(** X7: a copy whose destination is omitted, or is the empty string, is
    the copy to the name [lastName] returns for the source path: a name
    that does not exist, and the source path followed by [-copy] when that
    one is free. *)
Theorem Dir_copy_default_destination
    {os : FsPromises} {np : NodePath} (fuel : nat) (ofPath name : string)
    (st st' : fs) :
  Dir_lastName (S fuel) ofPath "" st = Ret name st' ->
  Dir_copy (S fuel) ofPath None st = Dir_copy (S fuel) ofPath (Some name) st
  /\ Dir_copy (S fuel) ofPath (Some "") st
     = Dir_copy (S fuel) ofPath (Some name) st
  /\ exists_now name st = false
  /\ (exists_now (ofPath ++ "-copy") st = false -> name = ofPath ++ "-copy").
Proof.
  intros Hname.
  destruct (lastName_loop_returned _ _ _ _ _ Hname)
    as [-> [n (_ & Hn & Hfree & _)]].
  assert (Hfalsy : falsy (Some name) = false).
  { destruct name; [ | reflexivity].
    exfalso. symmetry in Hn. exact (findName_not_empty _ _ _ Hn). }
  assert (Hgiven : Dir_copy (S fuel) ofPath (Some name) st
                   = Dir_copy (S fuel) ofPath None st).
  { rewrite !Dir_copy_step. rewrite Hfalsy. simpl falsy. cbv iota.
    rewrite (bind_run _ _ _ Hname). reflexivity. }
  split; [symmetry; exact Hgiven | split; [ | split]].
  - rewrite Hgiven. reflexivity.
  - exact Hfree.
  - intros Hcopy. unfold Dir_lastName in Hname.
    rewrite lastName_loop_step in Hname.
    change (findName ofPath "" 0) with (ofPath ++ "-copy") in Hname.
    rewrite Hcopy in Hname. now injection Hname.
Qed.

(** X7 on the reference filesystem: [src] is copied to [src-copy]. *)
Lemma Dir_copy_default_destination_witness :
  Dir_lastName (os := ref_fs) 3 "src" "" tree_src = Ret "src-copy" tree_src
  /\ Dir_copy (os := ref_fs) 3 "src" None tree_src
     = Dir_copy (os := ref_fs) 3 "src" (Some "src-copy") tree_src
  /\ Dir_copy (os := ref_fs) 3 "src" None tree_src
     = Ret true
           (dir [("src", dir [("f.txt", rw_file "hello");
                              ("sub", dir [("g.txt", rw_file "world")])]);
                 ("src-copy", dir [("f.txt", rw_file "hello");
                                   ("sub", dir [("g.txt", rw_file "world")])])]).
Proof.
  split; [reflexivity | split; [ | reflexivity]].
  exact (proj1 (@Dir_copy_default_destination ref_fs ref_path 2 "src"
                  "src-copy" tree_src tree_src eq_refl)).
Defined.

(** X8: where the source path has no character with a meaning in a
    pattern and the destination has no [$], the destination [copy]
    computes for an entry is the literal replacement of every occurrence of
    the source path in the entry's path; for an entry path that is the
    source path followed by a rest in which the source path does not occur
    again, it is the destination path followed by that rest. *)
Theorem after_path_is_literal_for_plain_paths
    (ofPath toPath before rest : string) :
  plain ofPath = true ->
  has_dollar (list_ascii_of_string toPath) = false ->
  after_path ofPath toPath before
  = Parsed (replaceAll_literal before ofPath toPath)
  /\ (ofPath <> "" ->
      occurs ofPath rest = false ->
      after_path ofPath toPath (ofPath ++ rest) = Parsed (toPath ++ rest)).
Proof.
  intros Hplain Hdollar. split.
  - unfold after_path. apply String_replace_plain; assumption.
  - intros Hne Hocc. apply after_path_replaces_prefix; assumption.
Qed.

(** X8 on two entries: the prefix is replaced, and so is a later
    occurrence of the source path. *)
Lemma after_path_is_literal_witness :
  (after_path "src" "dst" "src/a/src.txt"
   = Parsed (replaceAll_literal "src/a/src.txt" "src" "dst")
   /\ replaceAll_literal "src/a/src.txt" "src" "dst" = "dst/a/dst.txt")
  /\ after_path "src" "dst" ("src" ++ "/sub/g.txt") = Parsed "dst/sub/g.txt".
Proof.
  destruct (@after_path_is_literal_for_plain_paths "src" "dst"
              "src/a/src.txt" "/sub/g.txt" eq_refl eq_refl) as [Hall Hprefix].
  split; [split; [exact Hall | reflexivity] | ].
  apply Hprefix; [discriminate | reflexivity].
Defined.

(** ** Paths and trees of the reference filesystem *)

Section Paths.

Lemma append_nil_r (s : string) : s ++ "" = s.
Proof. induction s as [ | c s IH]; simpl; [reflexivity | now rewrite IH]. Qed.

Lemma append_assoc (a b c : string) : (a ++ b) ++ c = a ++ b ++ c.
Proof. induction a as [ | x a IH]; simpl; [reflexivity | now rewrite IH]. Qed.

Lemma split_slash_app (a b : string) :
  forall current,
    split_slash (a ++ String "/" b) current
    = (split_slash a current ++ split_slash b "")%list.
Proof.
  induction a as [ | x a IH]; intros current.
  - reflexivity.
  - cbn [append split_slash].
    destruct (is_char x "/"); rewrite IH; reflexivity.
Qed.

Lemma split_slash_simple (c : string) :
  has_slash c = false ->
  forall current, split_slash c current = [current ++ c].
Proof.
  unfold has_slash. induction c as [ | x c IH]; intros H current.
  - simpl. now rewrite append_nil_r.
  - cbn [list_ascii_of_string existsb] in H.
    apply orb_false_iff in H. destruct H as [Hx Hc].
    cbn [split_slash]. rewrite Hx.
    rewrite (IH Hc). rewrite append_assoc. reflexivity.
Qed.

Lemma resolve_components_app (l1 l2 : list string) :
  forall stack,
    resolve_components (l1 ++ l2) stack
    = resolve_components l2 (resolve_components l1 stack).
Proof.
  induction l1 as [ | c l1 IH]; intros stack; simpl; [reflexivity | ].
  destruct (String.eqb c "" || String.eqb c "."); [apply IH | ].
  destruct (String.eqb c ".."); apply IH.
Qed.

(** A simple name adds one component to a path. *)
Lemma components_child (p c : string) :
  simple_name c = true ->
  components (p ++ "/" ++ c) = (components p ++ [c])%list.
Proof.
  unfold simple_name. intros H.
  apply andb_prop in H. destruct H as [H Hdd].
  apply andb_prop in H. destruct H as [H Hd].
  apply andb_prop in H. destruct H as [Hs He].
  apply negb_true_iff in Hs, He, Hd, Hdd.
  unfold components. change ("/" ++ c) with (String "/" c).
  rewrite split_slash_app, (split_slash_simple c Hs), resolve_components_app.
  simpl. rewrite He, Hd, Hdd. reflexivity.
Qed.

Lemma diverging_app (a b x y : list string) :
  diverging a b = true -> diverging (a ++ x) (b ++ y) = true.
Proof.
  revert b. induction a as [ | c a IH]; intros [ | d b] H; simpl in *;
    try discriminate.
  destruct (String.eqb c d); [apply IH; exact H | reflexivity].
Qed.

Lemma diverging_sym (a b : list string) : diverging a b = diverging b a.
Proof.
  revert b. induction a as [ | c a IH]; intros [ | d b]; simpl; try reflexivity.
  rewrite (String.eqb_sym d c). destruct (String.eqb c d); [apply IH | reflexivity].
Qed.

End Paths.

Section Trees.

Lemma get_del_other c q es :
  c <> q -> get_entry q (del_entry c es) = get_entry q es.
Proof.
  intros Hcq. induction es as [ | [k w] es IH]; simpl; [reflexivity | ].
  destruct (String.eqb_spec k c) as [-> | Hk]; simpl.
  - destruct (String.eqb_spec c q); [contradiction | exact IH].
  - destruct (String.eqb_spec k q); [reflexivity | exact IH].
Qed.

Lemma put_put c v w es : put_entry c v (put_entry c w es) = put_entry c v es.
Proof.
  induction es as [ | [k x] es IH]; simpl.
  - now rewrite String.eqb_refl.
  - destruct (String.eqb_spec k c) as [-> | Hk]; simpl.
    + now rewrite String.eqb_refl.
    + destruct (String.eqb_spec k c); [contradiction | now rewrite IH].
Qed.

Lemma put_entry_fresh c v es :
  get_entry c es = None -> put_entry c v es = (es ++ [(c, v)])%list.
Proof.
  induction es as [ | [k x] es IH]; simpl; [reflexivity | ].
  destruct (String.eqb k c); [discriminate | ].
  intros H. now rewrite (IH H).
Qed.

Lemma walk_app t a b :
  walk t (a ++ b)
  = match walk t a with
    | Resolved n => walk n b
    | Rejected e => Rejected e
    end.
Proof.
  revert t. induction a as [ | c a IH]; intros t; simpl; [reflexivity | ].
  destruct t as [ | m es]; [reflexivity | ].
  destruct (can_search m); [ | reflexivity].
  destruct (get_entry c es); [apply IH | reflexivity].
Qed.

(** A change at one path is not seen at a path that parts ways with it. *)
Lemma update_frame f :
  forall cs t t' qs,
    update t cs f = Resolved t' ->
    diverging qs cs = true ->
    walk t' qs = walk t qs.
Proof.
  induction cs as [ | c cs IH]; intros t t' qs H Hdiv; simpl in H.
  - discriminate.
  - destruct t as [ | m es]; [discriminate | ].
    destruct (can_search m) eqn:Hm; [ | discriminate].
    destruct qs as [ | q qs]; [discriminate | ].
    simpl in Hdiv. cbn [walk]. 
    destruct (String.eqb_spec q c) as [-> | Hqc].
    + destruct cs as [ | c2 cs]; [destruct qs; discriminate | ].
      destruct (get_entry c es) as [k | ] eqn:Hget; [ | discriminate].
      destruct (update k (c2 :: cs) f) as [k' | e] eqn:Hk; [ | discriminate].
      injection H as <-. cbn [walk]. rewrite Hm, get_put_same.
      exact (IH _ _ _ Hk Hdiv).
    + assert (Hcq : c <> q) by congruence.
      destruct cs as [ | c2 cs].
      * destruct (f m (get_entry c es)) as [[n | ] | e]; try discriminate;
          injection H as <-; cbn [walk]; rewrite Hm.
        -- now rewrite (get_put_other _ _ Hcq).
        -- now rewrite (get_del_other _ Hcq).
      * destruct (get_entry c es) as [k | ]; [ | discriminate].
        destruct (update k (c2 :: cs) f) as [k' | e]; [ | discriminate].
        injection H as <-. cbn [walk]. rewrite Hm.
        now rewrite (get_put_other _ _ Hcq).
Qed.

Lemma walk_set_node x :
  forall cs t n, walk t cs = Resolved n -> walk (set_node t cs x) cs = Resolved x.
Proof.
  induction cs as [ | c cs IH]; intros t n H; simpl in *; [reflexivity | ].
  destruct t as [ | m es]; [discriminate | ].
  destruct (can_search m) eqn:Hm; [ | discriminate].
  destruct (get_entry c es) as [k | ] eqn:Hget; [ | discriminate].
  cbn [walk]. rewrite Hm, get_put_same. exact (IH _ _ H).
Qed.

Lemma set_node_frame x :
  forall cs t qs,
    diverging qs cs = true -> walk (set_node t cs x) qs = walk t qs.
Proof.
  induction cs as [ | c cs IH]; intros t qs Hdiv.
  - destruct qs; discriminate.
  - destruct qs as [ | q qs]; [discriminate | ]. simpl in Hdiv.
    destruct t as [ | m es]; [reflexivity | ]. simpl set_node.
    destruct (get_entry c es) as [k | ] eqn:Hget; [ | reflexivity].
    cbn [walk]. destruct (can_search m); [ | reflexivity].
    destruct (String.eqb_spec q c) as [-> | Hqc].
    + rewrite get_put_same, Hget. exact (IH _ _ Hdiv).
    + rewrite get_put_other by congruence. reflexivity.
Qed.

Lemma set_node_twice x y :
  forall cs t n,
    walk t cs = Resolved n ->
    set_node (set_node t cs x) cs y = set_node t cs y.
Proof.
  induction cs as [ | c cs IH]; intros t n H; simpl in *; [reflexivity | ].
  destruct t as [ | m es]; [discriminate | ].
  destruct (can_search m); [ | discriminate].
  destruct (get_entry c es) as [k | ] eqn:Hget; [ | discriminate].
  simpl. rewrite get_put_same, put_put, (IH _ _ H). reflexivity.
Qed.

(** The entry [c] of the directory at [cs]: changing it by [update] is
    replacing the directory. *)
Lemma update_child f c y :
  forall cs t m es,
    walk t cs = Resolved (Directory m es) ->
    can_search m = true ->
    f m (get_entry c es) = Resolved (Some y) ->
    update t (cs ++ [c]) f
    = Resolved (set_node t cs (Directory m (put_entry c y es))).
Proof.
  induction cs as [ | d cs IH]; intros t m es H Hm Hf; simpl in H.
  - injection H as ->. simpl. rewrite Hm, Hf. reflexivity.
  - destruct t as [ | m0 es0]; [discriminate | ].
    destruct (can_search m0) eqn:Hm0; [ | discriminate].
    destruct (get_entry d es0) as [k | ] eqn:Hget; [ | discriminate].
    change ((d :: cs) ++ [c])%list with (d :: (cs ++ [c]))%list.
    cbn [update set_node]. rewrite Hm0, Hget.
    rewrite (IH _ _ _ H Hm Hf).
    destruct (cs ++ [c])%list eqn:Hcs; [destruct cs; discriminate | ].
    reflexivity.
Qed.

Lemma set_node_child c y :
  forall cs t m es,
    walk t cs = Resolved (Directory m es) ->
    get_entry c es <> None ->
    set_node t (cs ++ [c]) y
    = set_node t cs (Directory m (put_entry c y es)).
Proof.
  induction cs as [ | d cs IH]; intros t m es H Hc; simpl in H.
  - injection H as ->. simpl.
    destruct (get_entry c es); [reflexivity | contradiction].
  - destruct t as [ | m0 es0]; [discriminate | ].
    destruct (can_search m0); [ | discriminate].
    destruct (get_entry d es0) as [k | ] eqn:Hget; [ | discriminate].
    simpl. rewrite Hget, (IH _ _ _ H Hc). reflexivity.
Qed.

End Trees.

(** ** A whole copy on the reference filesystem *)

Section CopyTree.

Lemma get_entry_clone c es :
  get_entry c (clone_entries es)
  = match get_entry c es with
    | Some k => Some (clone k)
    | None => None
    end.
Proof.
  induction es as [ | [k w] es IH]; simpl; [reflexivity | ].
  destruct (String.eqb k c); [reflexivity | exact IH].
Qed.

Lemma get_entry_app c k es1 es2 :
  get_entry c es1 = None ->
  get_entry c (es1 ++ (c, k) :: es2) = Some k.
Proof.
  induction es1 as [ | [d w] es1 IH]; simpl.
  - now rewrite String.eqb_refl.
  - destruct (String.eqb d c); [discriminate | exact IH].
Qed.

Lemma distinct_middle c (k : node) es1 es2 :
  distinct (List.map fst (es1 ++ (c, k) :: es2)) = true ->
  get_entry c es1 = None.
Proof.
  induction es1 as [ | [d w] es1 IH]; simpl; [reflexivity | ].
  intros H. apply andb_prop in H. destruct H as [Hd Hrest].
  apply negb_true_iff in Hd. rewrite map_app, existsb_app in Hd.
  apply orb_false_iff in Hd. destruct Hd as [_ Hd]. simpl in Hd.
  apply orb_false_iff in Hd. destruct Hd as [Hd _].
  rewrite Hd. exact (IH Hrest).
Qed.

Lemma put_entry_same c k es :
  get_entry c es = Some k -> put_entry c k es = es.
Proof.
  induction es as [ | [d w] es IH]; simpl; [discriminate | ].
  destruct (String.eqb_spec d c) as [-> | Hd].
  - now intros [= ->].
  - intros H. now rewrite (IH H).
Qed.

Lemma set_node_same :
  forall cs t n, walk t cs = Resolved n -> set_node t cs n = t.
Proof.
  induction cs as [ | c cs IH]; intros t n H; simpl in *.
  - now injection H.
  - destruct t as [ | m es]; [reflexivity | ].
    destruct (can_search m); [ | discriminate].
    destruct (get_entry c es) as [k | ] eqn:Hget; [ | reflexivity].
    rewrite (IH _ _ H), (put_entry_same _ _ Hget). reflexivity.
Qed.

Lemma height_entry e m es :
  In e es -> height (snd e) < height (Directory m es).
Proof.
  simpl. induction es as [ | x es IH]; simpl; [contradiction | ].
  intros [-> | Hin]; [lia | ]. specialize (IH Hin). lia.
Qed.

Lemma plain_append a b : plain (a ++ b) = plain a && plain b.
Proof.
  unfold plain. rewrite list_ascii_of_append, forallb_app. reflexivity.
Qed.

Lemma plain_no_dollar s :
  plain s = true -> has_dollar (list_ascii_of_string s) = false.
Proof.
  unfold plain, has_dollar.
  induction (list_ascii_of_string s) as [ | c l IH];
    cbn [forallb existsb]; [reflexivity | ].
  intros H. apply andb_prop in H. destruct H as [Hc Hl].
  rewrite (IH Hl), orb_false_r.
  unfold is_syntax_character in Hc. apply negb_true_iff in Hc.
  repeat (apply orb_false_iff in Hc; destruct Hc as [Hc ?]).
  assumption.
Qed.

Lemma has_dollar_append a b :
  has_dollar (list_ascii_of_string (a ++ b))
  = has_dollar (list_ascii_of_string a)
    || has_dollar (list_ascii_of_string b).
Proof.
  unfold has_dollar. rewrite list_ascii_of_append, existsb_app. reflexivity.
Qed.

(** What [copyable] says of a directory, one fact at a time. *)
Definition entry_ok (sp : string) (e : string * node) : Prop :=
  simple_name (fst e) = true
  /\ occurs sp ("/" ++ fst e) = false
  /\ copyable (sp ++ "/" ++ fst e) (snd e) = true.

Lemma copyable_directory sp m es :
  copyable sp (Directory m es) = true ->
  can_read m = true /\ can_search m = true /\ plain sp = true /\ sp <> ""
  /\ distinct (List.map fst es) = true
  /\ Forall (entry_ok sp) es.
Proof.
  cbn [copyable]. intros H.
  repeat (apply andb_prop in H; destruct H as [H ?]).
  repeat split; try assumption.
  - intros ->. discriminate.
  - apply Forall_forall. intros e He.
    match goal with
    | Hall : forallb _ es = true |- _ =>
      rewrite forallb_forall in Hall; specialize (Hall e He);
        apply andb_prop in Hall; destruct Hall as [Hall Hc];
        apply andb_prop in Hall; destruct Hall as [Hs Ho]
    end.
    apply negb_true_iff in Ho. repeat split; assumption.
Qed.

Lemma Forall2_map_left {A B C} (g : A -> B) (R : B -> C -> Prop)
    (R' : A -> C -> Prop) :
  forall l es,
    Forall2 R (List.map g l) es ->
    (forall x e, In x l -> R (g x) e -> R' x e) ->
    Forall2 R' l es.
Proof.
  induction l as [ | x l IH]; intros es H Himp; inversion H; subst.
  - constructor.
  - constructor.
    + apply Himp; [left; reflexivity | assumption].
    + apply IH; [assumption | ].
      intros a e Ha. apply Himp. right. exact Ha.
Qed.

Lemma get_entry_In c (k : node) es :
  distinct (List.map fst es) = true -> In (c, k) es -> get_entry c es = Some k.
Proof.
  intros Hd Hin. apply in_split in Hin. destruct Hin as (es1 & es2 & ->).
  apply get_entry_app. exact (distinct_middle _ _ _ _ Hd).
Qed.

(** What the loop of [copy] reads of an entry of the listing. *)
Definition lists_child (sp : string) (kid : string * node) (e : DirEntry)
  : Prop :=
  path e = sp ++ "/" ++ fst kid /\ file e = negb (is_directory (snd kid)).

(** The listing of a directory that can be read and searched: one entry
    per child, in order, a file exactly when the child is one. *)
Lemma ref_list_directory fuel sp t m kids :
  walk t (components sp) = Resolved (Directory m kids) ->
  can_read m = true ->
  can_search m = true ->
  distinct (List.map fst kids) = true ->
  Forall (fun kid => simple_name (fst kid) = true) kids ->
  exists entries,
    @Dir_list ref_fs ref_path (S fuel) sp false t = Ret entries t
    /\ Forall2 (lists_child sp) kids entries.
Proof.
  intros Hwalk Hread Hsearch Hdist Hsimple.
  destruct (@Dir_list_flat_returns ref_fs ref_path fuel sp t)
    as [entries Hlist].
  exists entries. split; [exact Hlist | ].
  pose proof (@Dir_list_quiet ref_fs ref_path (S fuel) sp false t) as Hq.
  rewrite Hlist in Hq. destruct Hq as [_ Hq].
  unfold listing_of in Hq. cbn [readdir ref_fs] in Hq.
  unfold ref_readdir in Hq. rewrite Hwalk, Hread in Hq.
  eapply Forall2_map_left; [exact Hq | ].
  intros [c k] e Hin He. simpl fst in *.
  destruct (lists_item_fields He) as (Hp & Hf & _).
  split; [exact Hp | ]. rewrite Hf. simpl snd. f_equal.
  unfold is_directory_now. cbn [stat_isDirectory ref_fs]. unfold ref_stat.
  rewrite Forall_forall in Hsimple.
  rewrite (components_child sp c (Hsimple _ Hin)), walk_app, Hwalk.
  cbn [walk]. rewrite Hsearch, (get_entry_In _ _ _ Hdist Hin).
  destruct k; reflexivity.
Qed.

End CopyTree.

Section CopyTreeLoop.

(** The entry [c] of the directory at [cs], which has no such entry yet. *)
Lemma ref_access_child_missing p c cs t acc :
  components p = (cs ++ [c])%list ->
  walk t cs = Resolved (Directory rwx acc) ->
  get_entry c acc = None ->
  exists_now (os := ref_fs) p t = false.
Proof.
  intros Hp Hwalk Hacc. unfold exists_now. cbn [access ref_fs].
  unfold ref_access. rewrite Hp, walk_app, Hwalk. cbn [walk can_search rwx].
  rewrite Hacc. reflexivity.
Qed.

Lemma ref_mkdir_child p c cs t acc :
  components p = (cs ++ [c])%list ->
  walk t cs = Resolved (Directory rwx acc) ->
  get_entry c acc = None ->
  ref_mkdir p t
  = (Resolved tt,
     set_node t cs (Directory rwx (acc ++ [(c, Directory rwx [])]))).
Proof.
  intros Hp Hwalk Hacc. rewrite ref_mkdir_unfold, Hp.
  destruct (cs ++ [c])%list eqn:Hcs; [destruct cs; discriminate | ].
  rewrite <- Hcs.
  rewrite (update_child make_directory c (y := Directory rwx []) cs t
             Hwalk eq_refl) by (rewrite Hacc; reflexivity).
  rewrite (put_entry_fresh _ _ _ Hacc). reflexivity.
Qed.

Lemma ref_writeFile_unfold p content t :
  ref_writeFile p content t
  = match components p with
    | [] => (Rejected EISDIR, t)
    | _ :: _ =>
      commit t (update t (components p) (fun parent old =>
        match old with
        | Some (RegFile m _) =>
          if can_write m then Resolved (Some (RegFile m content))
          else Rejected EACCES
        | Some (Directory _ _) => Rejected EISDIR
        | None =>
          if can_write parent then Resolved (Some (rw_file content))
          else Rejected EACCES
        end))
    end.
Proof. unfold ref_writeFile. destruct (components p); reflexivity. Qed.

Lemma ref_writeFile_child p content c cs t acc :
  components p = (cs ++ [c])%list ->
  walk t cs = Resolved (Directory rwx acc) ->
  get_entry c acc = None ->
  ref_writeFile p content t
  = (Resolved tt,
     set_node t cs (Directory rwx (acc ++ [(c, rw_file content)]))).
Proof.
  intros Hp Hwalk Hacc. rewrite ref_writeFile_unfold, Hp.
  destruct (cs ++ [c])%list eqn:Hcs; [destruct cs; discriminate | ].
  rewrite <- Hcs.
  rewrite (update_child _ c (y := rw_file content) cs t Hwalk eq_refl)
    by (rewrite Hacc; reflexivity).
  rewrite (put_entry_fresh _ _ _ Hacc). reflexivity.
Qed.

Lemma put_entry_last c v w acc :
  get_entry c acc = None ->
  put_entry c v (acc ++ [(c, w)]) = (acc ++ [(c, v)])%list.
Proof.
  intros Hacc. rewrite <- (put_entry_fresh c w acc Hacc), put_put.
  exact (put_entry_fresh c v acc Hacc).
Qed.

(** One call of [copy] with fuel [f]: from the state [t], in which the
    destination does not exist and its [mkdir] succeeds, the copy returns
    true and leaves the tree after that [mkdir] with the clone of the
    source at the destination. *)
Definition copies_tree (f : nat) : Prop :=
  forall sp dp sm kids t t2,
    height (Directory sm kids) <= f ->
    copyable sp (Directory sm kids) = true ->
    has_dollar (list_ascii_of_string dp) = false ->
    dp <> "" ->
    diverging (components sp) (components dp) = true ->
    exists_now (os := ref_fs) dp t = false ->
    ref_mkdir dp t = (Resolved tt, t2) ->
    walk t2 (components dp) = Resolved (Directory rwx []) ->
    walk t2 (components sp) = Resolved (Directory sm kids) ->
    @Dir_copy ref_fs ref_path f sp (Some dp) t
    = Ret true (set_node t2 (components dp) (clone (Directory sm kids))).

(** The loop of [copy] over the entries not yet copied, [kids2]: the
    destination holds the clones of the entries already copied, [kids1],
    and ends with the clones of all. *)
Lemma copy_loop_clones f sp dp sm :
  copies_tree f ->
  plain sp = true ->
  sp <> "" ->
  has_dollar (list_ascii_of_string dp) = false ->
  can_search sm = true ->
  diverging (components sp) (components dp) = true ->
  forall kids2 kids1 entries t1,
    Forall2 (lists_child sp) kids2 entries ->
    distinct (List.map fst (kids1 ++ kids2)) = true ->
    Forall (entry_ok sp) kids2 ->
    Forall (fun e => height (snd e) <= f) kids2 ->
    walk t1 (components sp) = Resolved (Directory sm (kids1 ++ kids2)) ->
    walk t1 (components dp) = Resolved (Directory rwx (clone_entries kids1)) ->
    copy_loop (@Dir_copy ref_fs ref_path f) sp dp entries t1
    = Ret tt (set_node t1 (components dp)
                       (Directory rwx (clone_entries (kids1 ++ kids2)))).
Proof.
  intros Hcopy Hplain Hne Hdollar Hsearch Hdiv.
  induction kids2 as [ | [c k] kids2 IH];
    intros kids1 entries t1 Hlist Hdist Hok Hheight Hsrc Hdst;
    inversion Hlist as [ | ? e ? es [Hpath Hfile] Hes]; subst.
  - rewrite app_nil_r. rewrite (set_node_same _ _ Hdst). reflexivity.
  - inversion Hok as [ | ? ? [Hsimple [Hocc Hchild]] Hok']; subst.
    inversion Hheight as [ | ? ? Hh Hheight']; subst.
    simpl fst in *. simpl snd in *.
    pose proof (distinct_middle _ _ _ _ Hdist) as Hfresh.
    pose proof (get_entry_app c k kids1 kids2 Hfresh) as Hget.
    assert (Hacc : get_entry c (clone_entries kids1) = None)
      by (rewrite get_entry_clone, Hfresh; reflexivity).
    pose proof (components_child sp c Hsimple) as Hsc.
    pose proof (components_child dp c Hsimple) as Hdc.
    assert (Hkid : walk t1 (components (sp ++ "/" ++ c)) = Resolved k).
    { rewrite Hsc, walk_app, Hsrc. cbn [walk]. rewrite Hsearch, Hget.
      reflexivity. }
    set (t1' := set_node t1 (components dp)
                  (Directory rwx (clone_entries kids1 ++ [(c, clone k)]))).
    cbn [copy_loop]. rewrite Hpath.
    rewrite (after_path_replaces_prefix dp ("/" ++ c) Hne Hplain Hdollar Hocc).
    unfold lift_parsed. unfold bind at 1. unfold ret at 1.
    assert (Hstep :
              (if negb (file e)
               then (@Dir_copy ref_fs ref_path f (sp ++ "/" ++ c)
                               (Some (dp ++ "/" ++ c)) ;; ret tt)
               else (@File_copy ref_fs ref_path (sp ++ "/" ++ c)
                                (dp ++ "/" ++ c) ;; ret tt)) t1
              = Ret tt t1').
    { rewrite Hfile.
      destruct k as [fm content | km kkids]; cbn [is_directory negb].
      - (* a file *)
        unfold bind. rewrite File_copy_run.
        cbn [readFile writeFile ref_fs]. unfold ref_readFile.
        rewrite Hkid. simpl in Hchild. rewrite Hchild.
        rewrite (ref_writeFile_child _ content c _ t1 Hdc Hdst Hacc).
        reflexivity.
      - (* a directory *)
        pose proof (copyable_directory _ _ _ Hchild)
          as (_ & _ & Hplain' & _ & _ & _).
        rewrite !plain_append in Hplain'.
        apply andb_prop in Hplain'. destruct Hplain' as [_ Hplain'].
        apply andb_prop in Hplain'. destruct Hplain' as [_ Hplainc].
        pose proof (ref_mkdir_child _ c _ t1 Hdc Hdst Hacc) as Hmk.
        set (t2 := set_node t1 (components dp)
                     (Directory rwx (clone_entries kids1
                                     ++ [(c, Directory rwx [])]))) in *.
        assert (Ht2 : walk t2 (components dp)
                      = Resolved (Directory rwx (clone_entries kids1
                                                 ++ [(c, Directory rwx [])])))
          by (apply (walk_set_node _ _ _ Hdst)).
        assert (H1 : has_dollar (list_ascii_of_string (dp ++ "/" ++ c))
                     = false).
        { rewrite !has_dollar_append, Hdollar, (plain_no_dollar _ Hplainc).
          reflexivity. }
        assert (H2 : dp ++ "/" ++ c <> "") by (destruct dp; discriminate).
        assert (H3 : diverging (components (sp ++ "/" ++ c))
                               (components (dp ++ "/" ++ c)) = true).
        { rewrite Hsc, Hdc. apply diverging_app. exact Hdiv. }
        assert (H4 : walk t2 (components (dp ++ "/" ++ c))
                     = Resolved (Directory rwx [])).
        { rewrite Hdc, walk_app, Ht2. cbn [walk can_search rwx].
          rewrite (get_entry_app c _ _ [] Hacc). reflexivity. }
        assert (H5 : walk t2 (components (sp ++ "/" ++ c))
                     = Resolved (Directory km kkids)).
        { rewrite Hsc, walk_app. unfold t2.
          rewrite (set_node_frame _ _ _ _ Hdiv), Hsrc. cbn [walk].
          rewrite Hsearch, Hget. reflexivity. }
        rewrite (bind_run _ _ _
                   (Hcopy (sp ++ "/" ++ c) (dp ++ "/" ++ c) km kkids t1 t2
                      Hh Hchild H1 H2 H3
                      (ref_access_child_missing _ c _ t1 Hdc Hdst Hacc)
                      Hmk H4 H5)).
        unfold ret. f_equal. rewrite Hdc.
        rewrite (set_node_child c _ _ _ Ht2)
          by (rewrite (get_entry_app c _ _ [] Hacc); discriminate).
        unfold t2. rewrite (set_node_twice _ _ _ _ Hdst).
        rewrite (put_entry_last _ _ _ _ Hacc). reflexivity. }
    rewrite (bind_run _ _ _ Hstep).
    assert (Hassoc : (kids1 ++ (c, k) :: kids2 = (kids1 ++ [(c, k)]) ++ kids2)%list)
      by (rewrite <- app_assoc; reflexivity).
    rewrite Hassoc in *.
    rewrite (IH (kids1 ++ [(c, k)])%list es t1' Hes Hdist Hok' Hheight').
    + unfold t1'. rewrite (set_node_twice _ _ _ _ Hdst). reflexivity.
    + unfold t1'. rewrite (set_node_frame _ _ _ _ Hdiv). exact Hsrc.
    + unfold t1'. rewrite (walk_set_node _ _ _ Hdst).
      unfold clone_entries. rewrite map_app. reflexivity.
Qed.

Lemma Dir_copy_copies_tree : forall f, copies_tree f.
Proof.
  induction f as [ | f IH];
    intros sp dp sm kids t t2 Hh Hcopyable Hdollar Hdp Hdiv Hnew Hmk Hdst Hsrc.
  - simpl in Hh. lia.
  - destruct (copyable_directory _ _ _ Hcopyable)
      as (Hread & Hsearch & Hplain & Hne & Hdist & Hok).
    rewrite Dir_copy_step.
    assert (Hfalsy : falsy (Some dp) = false)
      by (destruct dp; [contradiction | reflexivity]).
    rewrite Hfalsy. unfold bind at 1. unfold ret at 1. simpl string_or_empty.
    rewrite (bind_run _ _ _ (Dir_exists_run dp t)), Hnew.
    simpl negb. cbv iota.
    assert (Hcreate : (Dir_create (os := ref_fs) dp ;; ret tt) t = Ret tt t2).
    { rewrite (bind_run _ _ _ (Dir_create_run dp t)).
      cbn [mkdir ref_fs]. rewrite Hmk. reflexivity. }
    rewrite (bind_run _ _ _ Hcreate).
    destruct (ref_list_directory f sp t2 Hsrc Hread Hsearch Hdist)
      as [entries [Hlist Hentries]].
    { apply Forall_forall. intros e He. rewrite Forall_forall in Hok.
      apply (Hok e He). }
    rewrite (bind_run _ _ _ Hlist).
    assert (Hheights : Forall (fun e => height (snd e) <= f) kids).
    { apply Forall_forall. intros e He.
      pose proof (height_entry e sm kids He). lia. }
    rewrite (bind_run _ _ _
               (@copy_loop_clones f sp dp sm IH Hplain Hne Hdollar Hsearch
                  Hdiv kids [] entries t2 Hentries Hdist Hok Hheights
                  Hsrc Hdst)).
    reflexivity.
Qed.

End CopyTreeLoop.

Section CopyTreeResult.

(** The state a copy of a tree leaves, spelled out: the tree after the
    [mkdir] of the destination, with the clone of the source there. *)
Lemma Dir_copy_tree_state fuel sp dp t sm kids :
  walk t (components sp) = Resolved (Directory sm kids) ->
  copyable sp (Directory sm kids) = true ->
  height (Directory sm kids) <= fuel ->
  dp <> "" ->
  has_dollar (list_ascii_of_string dp) = false ->
  diverging (components sp) (components dp) = true ->
  exists_now (os := ref_fs) dp t = false ->
  fst (ref_mkdir dp t) = Resolved tt ->
  update t (components dp) make_directory = Resolved (snd (ref_mkdir dp t))
  /\ @Dir_copy ref_fs ref_path fuel sp (Some dp) t
     = Ret true (set_node (snd (ref_mkdir dp t)) (components dp)
                          (clone (Directory sm kids))).
Proof.
  intros Hsrc Hcopyable Hh Hdp Hdollar Hdiv Hnew Hmk.
  destruct (ref_mkdir dp t) as [o t2] eqn:Hmkdir. simpl in Hmk. subst o.
  simpl snd.
  assert (Hup : update t (components dp) make_directory = Resolved t2).
  { rewrite ref_mkdir_unfold in Hmkdir.
    destruct (components dp) as [ | d ds]; [discriminate | ].
    unfold commit in Hmkdir.
    destruct (update t (d :: ds) make_directory); [ | discriminate].
    now injection Hmkdir as ->. }
  split; [exact Hup | ].
  apply Dir_copy_copies_tree; try assumption.
  - eapply update_inserted; [exact make_directory_puts | exact Hup].
  - erewrite update_frame; [exact Hsrc | exact Hup | exact Hdiv].
Qed.

End CopyTreeResult.

(** X9: on the reference filesystem [Dir.copy] copies a whole tree.  Let
    the source path resolve to a directory that is [copyable] (files and
    directories readable, directories searchable, directory paths plain
    patterns, entry names simple, distinct and free of the directory's
    path), let the destination be a non-empty path without [$] that parts
    ways with the source path and does not exist, and let its [mkdir]
    succeed.  Then, with fuel for the height of the tree, the copy returns
    true; the destination resolves to the clone of the source (same names,
    same contents, same order); the source is as it was; and so is every
    path that parts ways with the destination. *)
Theorem Dir_copy_clones_the_tree
    (fuel : nat) (sp dp : string) (t src : node) :
  walk t (components sp) = Resolved src ->
  is_directory src = true ->
  copyable sp src = true ->
  height src <= fuel ->
  dp <> "" ->
  has_dollar (list_ascii_of_string dp) = false ->
  diverging (components sp) (components dp) = true ->
  exists_now (os := ref_fs) dp t = false ->
  fst (mkdir (FsPromises := ref_fs) dp t) = Resolved tt ->
  exists t',
    Dir_copy (os := ref_fs) (np := ref_path) fuel sp (Some dp) t = Ret true t'
    /\ walk t' (components dp) = Resolved (clone src)
    /\ walk t' (components sp) = Resolved src
    /\ (forall qs,
          diverging qs (components dp) = true -> walk t' qs = walk t qs).
Proof.
  intros Hsrc Hdir Hcopyable Hh Hdp Hdollar Hdiv Hnew Hmk.
  destruct src as [ | sm kids]; [discriminate | ].
  destruct (@Dir_copy_tree_state fuel sp dp t sm kids Hsrc Hcopyable Hh Hdp
              Hdollar Hdiv Hnew Hmk) as [Hup Hcopy].
  set (t2 := snd (ref_mkdir dp t)) in *.
  assert (Hdst : walk t2 (components dp) = Resolved (Directory rwx []))
    by (eapply update_inserted; [exact make_directory_puts | exact Hup]).
  assert (Hframe : forall qs,
             diverging qs (components dp) = true ->
             walk (set_node t2 (components dp) (clone (Directory sm kids))) qs
             = walk t qs).
  { intros qs Hqs.
    rewrite (set_node_frame _ _ _ _ Hqs).
    eapply update_frame; [exact Hup | exact Hqs]. }
  eexists. split; [exact Hcopy | split; [ | split]].
  - exact (walk_set_node _ _ _ Hdst).
  - rewrite (Hframe _ Hdiv). exact Hsrc.
  - exact Hframe.
Qed.

(** X9 on the sample tree: [src], a file and a directory with a file, is
    copied to [dst]. *)
Lemma Dir_copy_clones_the_tree_witness :
  Dir_copy (os := ref_fs) (np := ref_path) 2 "src" (Some "dst") tree_src
  = Ret true tree_src_copied
  /\ exists t',
       Dir_copy (os := ref_fs) (np := ref_path) 2 "src" (Some "dst") tree_src
       = Ret true t'
       /\ walk t' ["dst"]
          = Resolved (dir [("f.txt", rw_file "hello");
                           ("sub", dir [("g.txt", rw_file "world")])])
       /\ walk t' ["src"]
          = Resolved (dir [("f.txt", rw_file "hello");
                           ("sub", dir [("g.txt", rw_file "world")])])
       /\ (forall qs, diverging qs ["dst"] = true ->
                      walk t' qs = walk tree_src qs).
Proof.
  split; [reflexivity | ].
  exact (@Dir_copy_clones_the_tree 2 "src" "dst" tree_src
           (dir [("f.txt", rw_file "hello");
                 ("sub", dir [("g.txt", rw_file "world")])])
           eq_refl eq_refl eq_refl (le_n 2) ltac:(discriminate)
           eq_refl eq_refl eq_refl eq_refl).
Defined.

(** X10: on the reference filesystem the listing of a directory that can
    be read and searched, and whose entries have distinct simple names,
    returns one entry per child, in the order of the directory: its path is
    the child's path, and it is marked as a file exactly when the child is
    a regular file. *)
Theorem Dir_list_lists_the_children
    (fuel : nat) (sp : string) (t : node) (m : mode)
    (kids : list (string * node)) :
  walk t (components sp) = Resolved (Directory m kids) ->
  can_read m = true ->
  can_search m = true ->
  distinct (List.map fst kids) = true ->
  Forall (fun kid => simple_name (fst kid) = true) kids ->
  exists entries,
    Dir_list (os := ref_fs) (np := ref_path) (S fuel) sp false t
    = Ret entries t
    /\ List.map path entries
       = List.map (fun kid => sp ++ "/" ++ fst kid) kids
    /\ List.map file entries
       = List.map (fun kid => negb (is_directory (snd kid))) kids.
Proof.
  intros Hwalk Hread Hsearch Hdist Hsimple.
  destruct (@ref_list_directory fuel sp t m kids Hwalk Hread Hsearch Hdist
              Hsimple) as [entries [Hlist Hentries]].
  exists entries. split; [exact Hlist | ].
  clear Hlist Hwalk Hdist Hsimple.
  induction Hentries as [ | kid e kids entries [Hp Hf] _ [IHp IHf]].
  - split; reflexivity.
  - simpl. rewrite Hp, Hf, IHp, IHf. split; reflexivity.
Qed.

(** X10 on the sample tree. *)
Lemma Dir_list_lists_the_children_witness :
  exists entries,
    Dir_list (os := ref_fs) (np := ref_path) 1 "src" false tree_src
    = Ret entries tree_src
    /\ List.map path entries = ["src/f.txt"; "src/sub"]
    /\ List.map file entries = [true; false].
Proof.
  exact (@Dir_list_lists_the_children 0 "src" tree_src rwx
           [("f.txt", rw_file "hello");
            ("sub", dir [("g.txt", rw_file "world")])]
           eq_refl eq_refl eq_refl eq_refl
           ltac:(repeat constructor)).
Defined.

(** ** A whole move, and single files, on the reference filesystem *)

Section MoveTree.

Lemma update_leaf m es c f :
  update (Directory m es) [c] f
  = if can_search m then
      match f m (get_entry c es) with
      | Resolved (Some n) => Resolved (Directory m (put_entry c n es))
      | Resolved None => Resolved (Directory m (del_entry c es))
      | Rejected e => Rejected e
      end
    else Rejected EACCES.
Proof. reflexivity. Qed.

Lemma update_deep m es c c2 cs f :
  update (Directory m es) (c :: c2 :: cs) f
  = if can_search m then
      match get_entry c es with
      | Some k =>
        match update k (c2 :: cs) f with
        | Resolved k' => Resolved (Directory m (put_entry c k' es))
        | Rejected e => Rejected e
        end
      | None => Rejected ENOENT
      end
    else Rejected EACCES.
Proof. reflexivity. Qed.

(** A change that succeeds at one path still succeeds after a change at a
    path that parts ways with it. *)
Lemma update_after_update f g :
  forall scs dcs t t2 u,
    diverging scs dcs = true ->
    update t dcs g = Resolved t2 ->
    update t scs f = Resolved u ->
    exists u2, update t2 scs f = Resolved u2.
Proof.
  induction scs as [ | s ss IH]; intros dcs t t2 u Hdiv Hg Hf;
    [discriminate | ].
  destruct dcs as [ | d ds]; [discriminate | ].
  simpl in Hdiv, Hg, Hf.
  destruct t as [ | m es]; [discriminate | ].
  destruct (can_search m) eqn:Hm; [ | discriminate].
  destruct (String.eqb_spec s d) as [-> | Hsd].
  - destruct ds as [ | d2 ds]; [destruct ss; discriminate | ].
    destruct ss as [ | s2 ss]; [discriminate | ].
    destruct (get_entry d es) as [k | ] eqn:Hget; [ | discriminate].
    destruct (update k (d2 :: ds) g) as [k2 | ] eqn:Hk2; [ | discriminate].
    destruct (update k (s2 :: ss) f) as [ku | ] eqn:Hku; [ | discriminate].
    injection Hg as <-.
    destruct (IH _ _ _ _ Hdiv Hk2 Hku) as [ku2 Hku2].
    rewrite update_deep, Hm, get_put_same, Hku2. eexists. reflexivity.
  - assert (Hds : d <> s) by congruence.
    assert (Hsame : exists es', t2 = Directory m es'
                                /\ get_entry s es' = get_entry s es).
    { destruct ds as [ | d2 ds].
      - destruct (g m (get_entry d es)) as [[n | ] | ]; try discriminate;
          injection Hg as <-; eexists; (split; [reflexivity | ]).
        + apply get_put_other. exact Hds.
        + apply get_del_other. exact Hds.
      - destruct (get_entry d es) as [k | ]; [ | discriminate].
        destruct (update k (d2 :: ds) g) as [k2 | ]; [ | discriminate].
        injection Hg as <-. eexists. split; [reflexivity | ].
        apply get_put_other. exact Hds. }
    destruct Hsame as (es' & -> & Hes').
    destruct ss as [ | s2 ss].
    + rewrite update_leaf, Hm, Hes'.
      destruct (f m (get_entry s es)) as [[n | ] | ]; try discriminate;
        eexists; reflexivity.
    + rewrite update_deep, Hm, Hes'.
      destruct (get_entry s es) as [k | ]; [ | discriminate].
      destruct (update k (s2 :: ss) f) as [ku | ]; [ | discriminate].
      eexists. reflexivity.
Qed.

Lemma update_after_set_node f x :
  forall scs dcs t u,
    diverging scs dcs = true ->
    update t scs f = Resolved u ->
    exists u2, update (set_node t dcs x) scs f = Resolved u2.
Proof.
  induction scs as [ | s ss IH]; intros dcs t u Hdiv Hf; [discriminate | ].
  destruct dcs as [ | d ds]; [discriminate | ].
  simpl in Hdiv, Hf.
  destruct t as [ | m es]; [discriminate | ].
  destruct (can_search m) eqn:Hm; [ | discriminate].
  cbn [set_node].
  destruct (get_entry d es) as [kd | ] eqn:Hgetd.
  2:{ destruct ss as [ | s2 ss].
      - rewrite update_leaf, Hm.
        destruct (f m (get_entry s es)) as [[n | ] | ]; try discriminate;
          eexists; reflexivity.
      - rewrite update_deep, Hm.
        destruct (get_entry s es) as [k | ]; [ | discriminate].
        destruct (update k (s2 :: ss) f) as [ku | ]; [ | discriminate].
        eexists. reflexivity. }
  destruct (String.eqb_spec s d) as [-> | Hsd].
  - destruct ss as [ | s2 ss]; [destruct ds; discriminate | ].
    rewrite Hgetd in Hf.
    destruct (update kd (s2 :: ss) f) as [ku | ] eqn:Hku; [ | discriminate].
    destruct (IH ds _ _ Hdiv Hku) as [ku2 Hku2].
    rewrite update_deep, Hm, get_put_same, Hku2. eexists. reflexivity.
  - assert (Hds : d <> s) by congruence.
    destruct ss as [ | s2 ss].
    + rewrite update_leaf, Hm, (get_put_other _ _ Hds).
      destruct (f m (get_entry s es)) as [[n | ] | ]; try discriminate;
        eexists; reflexivity.
    + rewrite update_deep, Hm, (get_put_other _ _ Hds).
      destruct (get_entry s es) as [k | ]; [ | discriminate].
      destruct (update k (s2 :: ss) f) as [ku | ]; [ | discriminate].
      eexists. reflexivity.
Qed.

(** What [update] hands to its function and what it leaves: the entry the
    path resolved to before, and the entry it resolves to after. *)
Definition entry_at (t : node) (cs : list string) : option node :=
  match walk t cs with
  | Resolved n => Some n
  | Rejected _ => None
  end.

Lemma update_sees_and_sets f :
  forall cs t t',
    update t cs f = Resolved t' ->
    exists m, f m (entry_at t cs) = Resolved (entry_at t' cs).
Proof.
  unfold entry_at.
  induction cs as [ | c cs IH]; intros t t' H; simpl in H; [discriminate | ].
  destruct t as [ | m es]; [discriminate | ].
  destruct (can_search m) eqn:Hm; [ | discriminate].
  destruct cs as [ | c2 cs].
  - exists m. cbn [walk]. rewrite Hm.
    destruct (f m (get_entry c es)) as [[n | ] | ] eqn:Hf; try discriminate;
      injection H as <-; cbn [walk]; rewrite Hm.
    + rewrite get_put_same.
      destruct (get_entry c es); exact Hf.
    + rewrite get_del_same.
      destruct (get_entry c es); exact Hf.
  - destruct (get_entry c es) as [k | ] eqn:Hget; [ | discriminate].
    destruct (update k (c2 :: cs) f) as [k' | ] eqn:Hk; [ | discriminate].
    injection H as <-. destruct (IH _ _ Hk) as [m' Hm'].
    exists m'. cbn [walk]. rewrite Hm, Hget, get_put_same. exact Hm'.
Qed.

End MoveTree.

Section FilesOnTheTree.

(** A write that succeeds is read back, unless it went to an existing file
    that cannot be read. *)
Lemma ref_write_then_read p content t :
  fst (ref_writeFile p content t) = Resolved tt ->
  (forall m old,
     walk t (components p) = Resolved (RegFile m old) -> can_read m = true) ->
  ref_readFile p (snd (ref_writeFile p content t)) = Resolved content.
Proof.
  intros Hok Hreadable. rewrite ref_writeFile_unfold in *.
  destruct (components p) as [ | c cs] eqn:Hp; [discriminate | ].
  unfold commit in *.
  match type of Hok with
  | context [update t (c :: cs) ?f] =>
    destruct (update t (c :: cs) f) as [t' | ] eqn:Hup; [ | discriminate];
      destruct (update_sees_and_sets f _ _ Hup) as [m Hm]
  end.
  simpl snd. unfold ref_readFile. rewrite Hp. unfold entry_at in Hm.
  destruct (walk t (c :: cs)) as [[fm old | dm des] | ] eqn:Hwalk.
  - destruct (can_write fm); [ | discriminate].
    destruct (walk t' (c :: cs)) as [n | ]; [ | discriminate].
    injection Hm as <-. rewrite (Hreadable fm old eq_refl). reflexivity.
  - discriminate.
  - destruct (can_write m); [ | discriminate].
    destruct (walk t' (c :: cs)) as [n | ]; [ | discriminate].
    injection Hm as <-. reflexivity.
Qed.

End FilesOnTheTree.

(** X11: on the reference filesystem a move of a whole tree.  Under the
    conditions of the copy of a tree, and when the recursive removal of the
    source would succeed, [Dir.move] completes; the destination resolves to
    the clone of the source; the source path no longer exists; and every
    path that parts ways with both is as it was. *)
Theorem Dir_move_moves_the_tree
    (fuel : nat) (sp dp : string) (t src : node) :
  walk t (components sp) = Resolved src ->
  is_directory src = true ->
  copyable sp src = true ->
  height src <= fuel ->
  dp <> "" ->
  has_dollar (list_ascii_of_string dp) = false ->
  diverging (components sp) (components dp) = true ->
  exists_now (os := ref_fs) dp t = false ->
  fst (mkdir (FsPromises := ref_fs) dp t) = Resolved tt ->
  fst (rm_recursive (FsPromises := ref_fs) sp t) = Resolved tt ->
  exists t'',
    Dir_move (os := ref_fs) (np := ref_path) fuel sp (Some dp) t = Ret tt t''
    /\ walk t'' (components dp) = Resolved (clone src)
    /\ exists_now (os := ref_fs) sp t'' = false
    /\ (forall qs,
          diverging qs (components dp) = true ->
          diverging qs (components sp) = true ->
          walk t'' qs = walk t qs).
Proof.
  intros Hsrc Hdir Hcopyable Hh Hdp Hdollar Hdiv Hnew Hmk Hrm.
  destruct src as [ | sm kids]; [discriminate | ].
  destruct (@Dir_copy_tree_state fuel sp dp t sm kids Hsrc Hcopyable Hh Hdp
              Hdollar Hdiv Hnew Hmk) as [Hup Hcopy].
  set (t2 := snd (ref_mkdir dp t)) in *.
  set (t' := set_node t2 (components dp) (clone (Directory sm kids))) in *.
  assert (Hdst : walk t2 (components dp) = Resolved (Directory rwx []))
    by (eapply update_inserted; [exact make_directory_puts | exact Hup]).
  (* the removal succeeds on the tree the copy left *)
  cbn [rm_recursive ref_fs] in Hrm. unfold ref_rm, commit in Hrm.
  destruct (update t (components sp) remove_recursively) as [u | ] eqn:Hu;
    [ | discriminate].
  destruct (update_after_update remove_recursively make_directory
              _ _ _ Hdiv Hup Hu) as [u2 Hu2].
  destruct (update_after_set_node remove_recursively
              (clone (Directory sm kids)) _ (components dp) _ Hdiv Hu2)
    as [u3 Hu3].
  fold t' in Hu3.
  assert (Hrm' : rm_recursive (FsPromises := ref_fs) sp t' = (Resolved tt, u3)).
  { cbn [rm_recursive ref_fs]. unfold ref_rm. rewrite Hu3. reflexivity. }
  exists u3. split; [ | split; [ | split]].
  - rewrite (Dir_move_after_copy _ _ _ _ Hcopy), Hrm'. reflexivity.
  - erewrite update_frame;
      [ | exact Hu3 | rewrite diverging_sym; exact Hdiv].
    exact (walk_set_node _ _ _ Hdst).
  - exact (rm_removes (FsLaws := ref_fs_laws) sp t' Hrm').
  - intros qs Hqd Hqs.
    erewrite update_frame; [ | exact Hu3 | exact Hqs].
    unfold t'. rewrite (set_node_frame _ _ _ _ Hqd).
    eapply update_frame; [exact Hup | exact Hqd].
Qed.

(** X11 on the sample tree: [src] is moved to [dst]. *)
Lemma Dir_move_moves_the_tree_witness :
  Dir_move (os := ref_fs) (np := ref_path) 2 "src" (Some "dst") tree_src
  = Ret tt tree_src_moved
  /\ exists t'',
       Dir_move (os := ref_fs) (np := ref_path) 2 "src" (Some "dst") tree_src
       = Ret tt t''
       /\ walk t'' ["dst"]
          = Resolved (dir [("f.txt", rw_file "hello");
                           ("sub", dir [("g.txt", rw_file "world")])])
       /\ exists_now (os := ref_fs) "src" t'' = false
       /\ (forall qs,
             diverging qs ["dst"] = true -> diverging qs ["src"] = true ->
             walk t'' qs = walk tree_src qs).
Proof.
  split; [reflexivity | ].
  exact (@Dir_move_moves_the_tree 2 "src" "dst" tree_src
           (dir [("f.txt", rw_file "hello");
                 ("sub", dir [("g.txt", rw_file "world")])])
           eq_refl eq_refl eq_refl (le_n 2) ltac:(discriminate)
           eq_refl eq_refl eq_refl eq_refl eq_refl).
Defined.

(** X12: on the reference filesystem what [File.create] reports as
    created is read back by [File.read]: the result has [read] true and the
    content written.  The one exception is a write over an existing file
    that can be written but not read. *)
Theorem File_create_then_read
    (filePath content : string) (t t' : node) (r : CreateResult) :
  File_create (os := ref_fs) filePath content t = Ret r t' ->
  create r = true ->
  (forall m old,
     walk t (components filePath) = Resolved (RegFile m old) ->
     can_read m = true) ->
  exists name ext,
    File_read (os := ref_fs) (np := ref_path) filePath t'
    = Ret (ReadOk name content ext (name ++ ext)) t'.
Proof.
  rewrite File_create_run. cbn [writeFile ref_fs].
  intros Hrun Hcreated Hreadable.
  injection Hrun as <- <-.
  assert (Hok : fst (ref_writeFile filePath content t) = Resolved tt).
  { destruct (fst (ref_writeFile filePath content t)) as [[] | ];
      [reflexivity | discriminate]. }
  rewrite File_read_run. cbn [readFile ref_fs].
  rewrite (ref_write_then_read filePath content t Hok Hreadable).
  eexists. eexists. reflexivity.
Qed.

(** X12 on the reference filesystem: a new file in [src]. *)
Lemma File_create_then_read_witness :
  File_create (os := ref_fs) "src/n.md" "text" tree_src
  = Ret {| create := true; create_error := None |}
        (dir [("src", dir [("f.txt", rw_file "hello");
                           ("sub", dir [("g.txt", rw_file "world")]);
                           ("n.md", rw_file "text")])])
  /\ exists name ext,
       File_read (os := ref_fs) (np := ref_path) "src/n.md"
                 (dir [("src", dir [("f.txt", rw_file "hello");
                                    ("sub", dir [("g.txt", rw_file "world")]);
                                    ("n.md", rw_file "text")])])
       = Ret (ReadOk name "text" ext (name ++ ext))
             (dir [("src", dir [("f.txt", rw_file "hello");
                                ("sub", dir [("g.txt", rw_file "world")]);
                                ("n.md", rw_file "text")])]).
Proof.
  split; [reflexivity | ].
  exact (@File_create_then_read "src/n.md" "text" tree_src
           (dir [("src", dir [("f.txt", rw_file "hello");
                              ("sub", dir [("g.txt", rw_file "world")]);
                              ("n.md", rw_file "text")])])
           {| create := true; create_error := None |}
           eq_refl eq_refl ltac:(discriminate)).
Defined.

(** X13: on the reference filesystem [File.copy] copies the content.  When
    the source can be read and the write to the target succeeds, the copy
    returns true and the target reads as the source did, unless the target
    was an existing file that cannot be read. *)
Theorem File_copy_copies_the_content
    (oldFilePath newFilePath content : string) (t : node) :
  readFile (FsPromises := ref_fs) oldFilePath t = Resolved content ->
  fst (writeFile (FsPromises := ref_fs) newFilePath content t) = Resolved tt ->
  (forall m old,
     walk t (components newFilePath) = Resolved (RegFile m old) ->
     can_read m = true) ->
  exists t',
    File_copy (os := ref_fs) (np := ref_path) oldFilePath newFilePath t
    = Ret (VBool true) t'
    /\ readFile (FsPromises := ref_fs) newFilePath t' = Resolved content.
Proof.
  intros Hread Hwrite Hreadable.
  rewrite File_copy_run, Hread. eexists. split; [reflexivity | ].
  cbn [readFile writeFile ref_fs] in *.
  exact (ref_write_then_read newFilePath content t Hwrite Hreadable).
Qed.

(** X13 on the reference filesystem: [src/f.txt] is copied into
    [src/sub]. *)
Lemma File_copy_copies_the_content_witness :
  readFile (FsPromises := ref_fs) "src/f.txt" tree_src = Resolved "hello"
  /\ exists t',
       File_copy (os := ref_fs) (np := ref_path) "src/f.txt" "src/sub/f.txt"
                 tree_src = Ret (VBool true) t'
       /\ readFile (FsPromises := ref_fs) "src/sub/f.txt" t' = Resolved "hello".
Proof.
  split; [reflexivity | ].
  exact (@File_copy_copies_the_content "src/f.txt" "src/sub/f.txt" "hello"
           tree_src eq_refl eq_refl ltac:(discriminate)).
Defined.
